(** * deepblu: provider registry, injection and domain mixins

    A shallow embedding of
      - [src/deepblu/di/registry.py]  (the registry that calls the bound
        factory on every [get]),
      - [src/deepblu/di.py]           (the registry that caches resolved
        instances, the module-level functions and the [inject] decorator),
      - [src/deepblu/domain/__init__.py] ([Primitive] and [ValueObject]).

    Python objects that are used as dictionary keys (classes, functions) are
    represented by their identity, a [positive].  Calling such an object is
    an effect on the rest of the program: it is given by [call], which maps
    the identity of the callee and the current [World] to a returned value
    or a raised exception, together with the new world.  Factories and the
    bodies of wrapped callables act on the world only: code that re-enters
    the registry while a key is being resolved or a wrapped callable runs,
    such as the initializer of a class made injectable that is itself a
    provider, is not covered by this development. *)

From stdpp Require Import gmap strings list fin_maps sorting.

Set Warnings "-register-all,-clear-no-such-hyp".

Local Open Scope string_scope.

(** ** Python values, exceptions and outcomes *)

(** Identity of a hashable callable: an interface key, a class, a function. *)
Definition Interface := positive.
Definition ClassId := positive.

(** A callable as the registry stores it: an existing class or function
    ([Ref]), or the closure that [provide_many] builds over a list of
    callables ([Many]). *)
Inductive Provider : Type :=
| Ref (callee : Interface)
| Many (impls : list Provider).

(** The values that flow through the program.  [VObj] is an object compared
    and hashed by identity.  Dictionaries are insertion-ordered and, here,
    keyed by strings.  [bool] is a subclass of [int] in Python ([True == 1],
    [hash(True) == hash(1)]), so booleans are the integers 0 and 1.  Floats
    are left out. *)
Inductive Value : Type :=
| VNone
| VInt (z : Z)
| VStr (s : string)
| VObj (o : positive)
| VTuple (vs : list Value)
| VList (vs : list Value)
| VDict (items : list (string * Value)).

Inductive Exn : Type :=
| KeyError (key : Interface)
| TypeError (msg : string)
| ValidationError (errors : list string)
| Failure (tag : positive).

(** The result of running a piece of code from a state [S]: it returns a
    value or raises, and in both cases leaves a state behind. *)
Inductive outcome (S A : Type) : Type :=
| Return (a : A) (s : S)
| Raise (e : Exn) (s : S).
Arguments Return {S A} a s.
Arguments Raise {S A} e s.

Definition state_of {S A} (o : outcome S A) : S :=
  match o with Return _ s => s | Raise _ s => s end.

Definition returned {S A} (o : outcome S A) : option A :=
  match o with Return a _ => Some a | Raise _ _ => None end.

Definition M (S A : Type) : Type := S → outcome S A.

Definition ret {S A} (a : A) : M S A := fun s => Return a s.
Definition raise {S A} (e : Exn) : M S A := fun s => Raise e s.
Definition mbind {S A B} (m : M S A) (k : A → M S B) : M S B :=
  fun s => match m s with
           | Return a s' => k a s'
           | Raise e s' => Raise e s'
           end.

Notation "'let*' x ':=' m 'in' k" := (mbind m (fun x => k))
  (at level 10, x name, m at level 100, k at level 200).

(** The rest of the program: a world and the behaviour of every callable. *)
Class Runtime : Type := {
  World : Type;
  call : Interface → M World Value
}.

(** [provider()]: calling a stored callable with no arguments.  The closure
    of [provide_many] is [lambda: [provider() for provider in impls]]. *)
Fixpoint invoke `{Runtime} (f : Provider) : M World Value :=
  match f with
  | Ref callee => call callee
  | Many impls =>
      let* vs := (fix comprehension (ps : list Provider) : M World (list Value) :=
                    match ps with
                    | [] => ret []
                    | provider :: rest =>
                        let* v := invoke provider in
                        let* vs := comprehension rest in
                        ret (v :: vs)
                    end) impls in
      ret (VList vs)
  end.

(** The list comprehension on its own, for statements about it. *)
Fixpoint comprehension `{Runtime} (ps : list Provider) : M World (list Value) :=
  match ps with
  | [] => ret []
  | provider :: rest =>
      let* v := invoke provider in
      let* vs := comprehension rest in
      ret (v :: vs)
  end.

(** ** src/deepblu/di/registry.py *)

Module Registry.

Module ProviderRegistry.

Record t : Type := {
  __bindings__ : gmap Interface Provider
}.

Section Methods.
Context `{Runtime}.

Definition __init__ : t := {| __bindings__ := ∅ |}.

(** [self.__bindings__[interface] = impl; return self] *)
Definition bind (interface : Interface) (impl : Provider) (self : t) : t :=
  {| __bindings__ := <[interface := impl]> (__bindings__ self) |}.

Definition __setitem__ (interface : Interface) (impl : Provider) (self : t) : t :=
  bind interface impl self.

(** [return self.__bindings__[interface]()] *)
Definition get (interface : Interface) (self : t) : M World Value :=
  match __bindings__ self !! interface with
  | None => raise (KeyError interface)
  | Some impl => invoke impl
  end.

Definition __getitem__ (interface : Interface) (self : t) : M World Value :=
  get interface self.

Definition bindings (self : t) : gmap Interface Provider :=
  __bindings__ self.
End Methods.

End ProviderRegistry.

End Registry.

(** ** src/deepblu/di.py *)

Module Di.

Module ProviderRegistry.

Record t : Type := {
  __bindings__ : gmap Interface Provider;
  __instances__ : gmap Interface Value
}.

Section Methods.
Context `{Runtime}.

Definition __init__ : t := {| __bindings__ := ∅; __instances__ := ∅ |}.

(** [self.__bindings__[interface] = impl; return self] *)
Definition bind (interface : Interface) (impl : Provider) (self : t) : t :=
  {| __bindings__ := <[interface := impl]> (__bindings__ self);
     __instances__ := __instances__ self |}.

Definition __setitem__ (interface : Interface) (impl : Provider) (self : t) : t :=
  bind interface impl self.

(** [self.__instances__[interface] = instance] *)
Definition set_instance (interface : Interface) (instance : Value) (self : t) : t :=
  {| __bindings__ := __bindings__ self;
     __instances__ := <[interface := instance]> (__instances__ self) |}.

(** [try: instance = self.__instances__[interface]
     except KeyError: instance = self.__bindings__[interface]()
     self.__instances__[interface] = instance
     return instance]
    The result is the instance together with the registry as the
    call leaves it; when the call raises, the registry is as it was. *)
Definition get (interface : Interface) (self : t) : M World (Value * t) :=
  match __instances__ self !! interface with
  | Some instance => ret (instance, set_instance interface instance self)
  | None =>
      match __bindings__ self !! interface with
      | None => raise (KeyError interface)
      | Some impl =>
          let* instance := invoke impl in
          ret (instance, set_instance interface instance self)
      end
  end.

Definition __getitem__ (interface : Interface) (self : t) : M World (Value * t) :=
  get interface self.

Definition bindings (self : t) : gmap Interface Provider :=
  __bindings__ self.
End Methods.

End ProviderRegistry.

(** The program state: the module-level singleton [registry] and the
    world around it. *)
Record State `{Runtime} : Type := {
  registry : ProviderRegistry.t;
  world : World
}.

Definition AnyBinding : Type := Interface * Provider.

(** An argument of [bind_all]: a bare provider or an
    [(interface, implementation)] tuple. *)
Inductive ProviderArg : Type :=
| Bare (provider : Interface)
| Tuple (binding : AnyBinding).

(** What [inspect] knows about a wrapped callable: its
    positional-or-keyword parameters in order, whether it takes
    [**kwargs], and its return annotation.  An annotation is the object the
    source code names, which may or may not be a key of the registry.
    Positional-only and keyword-only parameters, [*args] and an annotation
    on [**kwargs] are not represented: what is stated about [inject] is
    stated for callables with positional-or-keyword parameters. *)
Record Param : Type := {
  name : string;
  annotation : option Interface;
  default : option Value
}.

Record Signature : Type := {
  parameters : list Param;
  varkw : bool;
  return_annotation : option Interface
}.

(** The arguments as the body of the callee sees them. *)
Record BoundArguments : Type := {
  arguments : gmap string Value;
  extra : gmap string Value
}.

Record Function `{Runtime} : Type := {
  signature : Signature;
  body : BoundArguments → M World Value
}.

(** [d[k] = v] on an insertion-ordered dict. *)
Fixpoint setitem {A} (k : string) (v : A) (d : list (string * A)) : list (string * A) :=
  match d with
  | [] => [(k, v)]
  | (k', v') :: rest =>
      if bool_decide (k' = k) then (k, v) :: rest else (k', v') :: setitem k v rest
  end.

(** [inspect.getfullargspec(func).annotations]: the return annotation is
    entered first, under the name ["return"], then every annotated
    parameter in order. *)
Definition getfullargspec_annotations (sig : Signature) : list (string * Interface) :=
  foldl (fun annotations param =>
           match annotation param with
           | Some a => setitem (name param) a annotations
           | None => annotations
           end)
        (match return_annotation sig with
         | Some r => [("return", r)]
         | None => []
         end)
        (parameters sig).

(** The binding of [func( *args, **kwargs )] to the parameters of [func],
    as the interpreter does it for positional-or-keyword parameters and
    [**kwargs]: positional arguments fill the parameters from the left, a
    keyword fills the parameter of its name or goes to [**kwargs], and a
    parameter left without a value takes its default.  Every failure is a
    [TypeError].  When several apply, the interpreter reports the keyword
    failures first, in the order of the keywords in [kwargs], then excess
    positional arguments, then missing ones; a map keeps no order, and the
    message is chosen in the order below.  It is the interpreter's message
    except, possibly, in a call that has both a keyword for a parameter
    already filled and a keyword that names no parameter. *)
Definition bind_arguments (sig : Signature) (args : list Value)
    (kwargs : gmap string Value) : Exn + BoundArguments :=
  let names := name <$> parameters sig in
  let positional := take (length args) names in
  if bool_decide (Exists (fun n => n ∈ dom kwargs) positional) then
    inl (TypeError "got multiple values for argument")
  else if negb (varkw sig) && bool_decide (¬ dom kwargs ⊆ list_to_set names) then
    inl (TypeError "got an unexpected keyword argument")
  else if bool_decide (length names < length args)%nat then
    inl (TypeError "takes fewer positional arguments than were given")
  else
    let given : gmap string Value :=
      list_to_map (zip positional args) ∪ filter (fun kv => kv.1 ∈ names) kwargs in
    let defaults : gmap string Value :=
      list_to_map (omap (fun p => pair (name p) <$> default p) (parameters sig)) in
    if bool_decide (Forall (fun n => n ∈ dom (given ∪ defaults)) names) then
      inr {| arguments := given ∪ defaults;
             extra := filter (fun kv => kv.1 ∉ names) kwargs |}
    else
      inl (TypeError "missing required argument").

Section Functions.
Context `{Runtime}.

Definition lift_world {A} (m : M World A) : M State A :=
  fun s => match m (world s) with
           | Return a w => Return a {| registry := registry s; world := w |}
           | Raise e w => Raise e {| registry := registry s; world := w |}
           end.

(** [registry[interface] = impl] *)
Definition bind (interface : Interface) (impl : Provider) (s : State) : State :=
  {| registry := ProviderRegistry.__setitem__ interface impl (registry s);
     world := world s |}.

(** [bind(provider, provider)] *)
Definition add (provider : Interface) (s : State) : State :=
  bind provider (Ref provider) s.

(** [for provider in providers:
       if isinstance(provider, tuple): interface, impl = provider
       else: interface, impl = provider, provider
       bind(interface, impl)] *)
Definition bind_all (providers : list ProviderArg) (s : State) : State :=
  foldl (fun s provider =>
           let '(interface, impl) :=
             match provider with
             | Tuple binding => binding
             | Bare provider => (provider, Ref provider)
             end in
           bind interface impl s)
        s providers.

(** [return registry[interface]] *)
Definition get (interface : Interface) : M State Value :=
  fun s =>
    match ProviderRegistry.__getitem__ interface (registry s) (world s) with
    | Return (instance, self) w => Return instance {| registry := self; world := w |}
    | Raise e w => Raise e {| registry := registry s; world := w |}
    end.

(** [return (interface, lambda: [provider() for provider in impls])] *)
Definition provide_many (interface : Interface) (impls : list Provider) : AnyBinding :=
  (interface, Many impls).

(** [func( *args, **kwargs )] *)
Definition apply (func : Function) (args : list Value)
    (kwargs : gmap string Value) : M World Value :=
  match bind_arguments (signature func) args kwargs with
  | inl e => raise e
  | inr bound => body func bound
  end.

(** [for name, provider in annotations.items():
       if provider in registry.bindings and name not in kwargs:
           kwargs[name] = registry[provider]] *)
Fixpoint inject_kwargs (items : list (string * Interface))
    (kwargs : gmap string Value) : M State (gmap string Value) :=
  match items with
  | [] => ret kwargs
  | (name, provider) :: rest =>
      fun s =>
        if bool_decide (provider ∈ dom (ProviderRegistry.bindings (registry s)))
           && bool_decide (name ∉ dom kwargs)
        then (let* instance := get provider in
              inject_kwargs rest (<[name := instance]> kwargs)) s
        else inject_kwargs rest kwargs s
  end.

(** The [wrapper] that [inject(func)] returns:
    [annotations = inspect.getfullargspec(func).annotations
     for name, provider in annotations.items(): ...
     return func( *args, **kwargs )] *)
Definition inject (func : Function) (args : list Value)
    (kwargs : gmap string Value) : M State Value :=
  let* kwargs := inject_kwargs (getfullargspec_annotations (signature func)) kwargs in
  lift_world (apply func args kwargs).

(** [module(imports, providers)] applied to a class: the providers are
    bound, the imports are only recorded. *)
Definition module (imports : list ClassId) (providers : list ProviderArg) (s : State) : State :=
  bind_all providers s.
End Functions.

End Di.

(** ** src/deepblu/domain/__init__.py *)

Module Domain.

(** The schema-validation engine (pydantic): for a field type and a value,
    the constraints the value violates, none when it is valid. *)
Class SchemaEngine : Type := {
  validate : ClassId → Value → list string
}.

(** The interpreter's [hash] on the hashable built-in types. *)
Class Hashing : Type := {
  hash_none : Z;
  hash_int : Z → Z;
  hash_str : string → Z;
  hash_obj : positive → Z;
  hash_tuple : list Z → Z
}.

(** Modelled from the spec: [deepblu/result.py] is not among the sources.
    [Result] is "a two-variant container (success carrying a value,
    failure carrying an error)", [monadic] is the "combinator that lifts a
    raising function into one returning this container", and [is_ok] its
    predicate. *)
Inductive Result (A E : Type) : Type :=
| Ok (value : A)
| Err (error : E).
Arguments Ok {A E} value.
Arguments Err {A E} error.

Definition monadic {A B} (f : A → Exn + B) (x : A) : Result B Exn :=
  match f x with
  | inr value => Ok value
  | inl error => Err error
  end.

Definition is_ok {A E} (r : Result A E) : bool :=
  match r with Ok _ => true | Err _ => false end.

Module Primitive.
Section Methods.
Context `{SchemaEngine}.

(** [create_model("Validator", v=(cls, ...))(v=value); return value] *)
Definition parse (cls : ClassId) (value : Value) : Exn + Value :=
  match validate cls value with
  | [] => inr value
  | errors => inl (ValidationError errors)
  end.

(** [return monadic(cls.parse)(value)] *)
Definition monadic_parse (cls : ClassId) (value : Value) : Result Value Exn :=
  monadic (parse cls) value.

(** [return cls.monadic_parse(value).is_ok] *)
Definition is_valid (cls : ClassId) (value : Value) : bool :=
  is_ok (monadic_parse cls value).
End Methods.
End Primitive.

(** An instance of a schema class: its class, the proper ancestors of the
    class, and its fields in declaration order.  A field holds a plain
    value or an instance of another schema class. *)
Inductive Model : Type :=
| Instance (cls : ClassId) (bases : list ClassId) (fields : list (string * Field))
with Field : Type :=
| Plain (v : Value)
| Nested (m : Model).

Definition class_of (m : Model) : ClassId :=
  match m with Instance cls _ _ => cls end.

Definition fields_of (m : Model) : list (string * Field) :=
  match m with Instance _ _ fields => fields end.

(** [isinstance(other, cls)] *)
Definition isinstance (other : Field) (cls : ClassId) : bool :=
  match other with
  | Plain _ => false
  | Nested (Instance c bases _) => bool_decide (cls = c) || bool_decide (cls ∈ bases)
  end.

(** [self.dict()]: the fields by name, nested instances serialized in
    turn. *)
Fixpoint dict (self : Model) : list (string * Value) :=
  match self with
  | Instance _ _ fields =>
      (fix items (fs : list (string * Field)) : list (string * Value) :=
         match fs with
         | [] => []
         | (k, Plain v) :: rest => (k, v) :: items rest
         | (k, Nested m) :: rest => (k, VDict (dict m)) :: items rest
         end) fields
  end.

(** [d.get(k)] on an insertion-ordered dict. *)
Fixpoint getitem {A} (k : string) (d : list (string * A)) : option A :=
  match d with
  | [] => None
  | (k', v) :: rest => if bool_decide (k' = k) then Some v else getitem k rest
  end.

(** Comparison of two sequences element by element, and of the items of
    one dict with those of another key by key, for a given comparison of
    the elements. *)
Section Containers.
Context {A : Type} (elem_eq : A → A → bool).

Fixpoint seq_eq (xs ys : list A) : bool :=
  match xs, ys with
  | [], [] => true
  | x :: xs', y :: ys' => elem_eq x y && seq_eq xs' ys'
  | _, _ => false
  end.

Fixpoint items_in (xs d : list (string * A)) : bool :=
  match xs with
  | [] => true
  | (k, v) :: xs' =>
      match getitem k d with
      | Some v' => elem_eq v v' && items_in xs' d
      | None => false
      end
  end.
End Containers.

(** [a == b] on built-in values.  Sequences are compared element by
    element, dictionaries by size and then key by key, whatever the
    insertion order; objects by identity. *)
Fixpoint py_eq (a b : Value) {struct a} : bool :=
  match a, b with
  | VNone, VNone => true
  | VInt x, VInt y => bool_decide (x = y)
  | VStr x, VStr y => bool_decide (x = y)
  | VObj x, VObj y => bool_decide (x = y)
  | VTuple xs, VTuple ys => seq_eq py_eq xs ys
  | VList xs, VList ys => seq_eq py_eq xs ys
  | VDict xs, VDict ys => bool_decide (length xs = length ys) && items_in py_eq xs ys
  | _, _ => false
  end.

(** [sorted(d.items())].  The keys of a dict are pairwise different, so
    the order of two items is the order of their keys; strings are ordered
    by code point, which is the order of their UTF-8 bytes. *)
Fixpoint insort (x : string * Value) (l : list (string * Value)) : list (string * Value) :=
  match l with
  | [] => [x]
  | y :: rest => if String.leb x.1 y.1 then x :: l else y :: insort x rest
  end.

Definition sorted (l : list (string * Value)) : list (string * Value) :=
  foldr insort [] l.

Section ValueObject.
Context `{Hashing}.

(** The hashes of the elements of a sequence, or what the first
    unhashable element raises. *)
Fixpoint hashes (elem_hash : Value → Exn + Z) (l : list Value) : Exn + list Z :=
  match l with
  | [] => inr []
  | x :: rest =>
      match elem_hash x with
      | inl e => inl e
      | inr h =>
          match hashes elem_hash rest with
          | inl e => inl e
          | inr hs => inr (h :: hs)
          end
      end
  end.

(** [hash(v)] on built-in values: lists and dicts are unhashable, a
    tuple is hashable when its elements are. *)
Fixpoint py_hash (v : Value) : Exn + Z :=
  match v with
  | VNone => inr hash_none
  | VInt z => inr (hash_int z)
  | VStr s => inr (hash_str s)
  | VObj o => inr (hash_obj o)
  | VTuple vs =>
      match hashes py_hash vs with
      | inl e => inl e
      | inr hs => inr (hash_tuple hs)
      end
  | VList _ => inl (TypeError "unhashable type: 'list'")
  | VDict _ => inl (TypeError "unhashable type: 'dict'")
  end.

(** An item [(k, v)] of [d.items()] as a value. *)
Definition item (kv : string * Value) : Value := VTuple [VStr kv.1; kv.2].

(** [return hash(tuple(sorted(self.dict().items())))] *)
Definition __hash__ (self : Model) : Exn + Z :=
  py_hash (VTuple (item <$> sorted (dict self))).

(** [return self.copy()] *)
Definition clone (self : Model) : Model := self.

(** [return isinstance(other, self.__class__) and self.dict() == other.dict()] *)
Definition __eq__ (self : Model) (other : Field) : bool :=
  isinstance other (class_of self) &&
  match other with
  | Nested m => py_eq (VDict (dict self)) (VDict (dict m))
  | Plain _ => false
  end.
End ValueObject.

End Domain.

(** ** Programs over the registry of [di.py] *)

(** What client code can do to the state of [di.py]: call one of the
    module-level functions or a wrapped callable, or run code of its own
    that touches the world only.  A client may catch what an operation
    raises and carry on, so [exec] keeps the state in both cases. *)
Inductive Op `{Runtime} : Type :=
| OBind (interface : Interface) (impl : Provider)
| OAdd (provider : Interface)
| OBindAll (providers : list Di.ProviderArg)
| OGet (interface : Interface)
| OInject (func : Di.Function) (args : list Value) (kwargs : gmap string Value)
| OWorld (code : World → World).

Section Programs.
Context `{Runtime}.

Local Abbreviation instances s :=
  (Di.ProviderRegistry.__instances__ (Di.registry s)).
Local Abbreviation bindings s :=
  (Di.ProviderRegistry.__bindings__ (Di.registry s)).

Definition exec (o : Op) (s : Di.State) : Di.State :=
  match o with
  | OBind interface impl => Di.bind interface impl s
  | OAdd provider => Di.add provider s
  | OBindAll providers => Di.bind_all providers s
  | OGet interface => state_of (Di.get interface s)
  | OInject func args kwargs => state_of (Di.inject func args kwargs s)
  | OWorld code => {| Di.registry := Di.registry s; Di.world := code (Di.world s) |}
  end.

Definition run (ops : list Op) (s : Di.State) : Di.State := foldl (fun s o => exec o s) s ops.

(** The state of a fresh interpreter: [registry = ProviderRegistry()]. *)
Definition init (w : World) : Di.State :=
  {| Di.registry := Di.ProviderRegistry.__init__; Di.world := w |}.

(** Resolving [k] by calling [f]: the result of [f()] is cached under [k]
    and returned; what [f] raises is raised. *)
Definition resolve_with (k : Interface) (f : Provider) : M Di.State Value :=
  fun s =>
    match invoke f (Di.world s) with
    | Return v w =>
        Return v {| Di.registry := Di.ProviderRegistry.set_instance k v (Di.registry s);
                    Di.world := w |}
    | Raise e w => Raise e {| Di.registry := Di.registry s; Di.world := w |}
    end.

(** Whether an operation may resolve [k] through the registry. *)
Definition resolves (k : Interface) (o : Op) : bool :=
  match o with
  | OGet interface => bool_decide (interface = k)
  | OInject func _ _ =>
      bool_decide (k ∈ (Di.getfullargspec_annotations (Di.signature func)).*2)
  | _ => false
  end.

(** "For every sequence of registry operations containing [bind(k, f1)]
    and later [bind(k, f2)], any [get(k)] performed after the second bind
    reflects only the latest factory [f2], regardless of whether [get(k)]
    was also called between the two binds", from a fresh registry. *)
Definition latest_factory_wins : Prop :=
  ∀ (k : Interface) (f1 f2 : Provider) (ops : list Op) (w : World),
    let s2 := Di.bind k f2 (run ops (Di.bind k f1 (init w))) in
    Di.get k s2 = resolve_with k f2 s2.


(** The interface and implementation that one argument of [bind_all]
    stands for. *)
Definition binding_of (p : Di.ProviderArg) : Di.AnyBinding :=
  match p with
  | Di.Tuple binding => binding
  | Di.Bare provider => (provider, Ref provider)
  end.

(** [bind_all] as the specification words it: each entry applied in
    order, a bare provider through [add], a pair through [bind]. *)
Definition bind_all_spec (providers : list Di.ProviderArg) (s : Di.State) : Di.State :=
  foldl (fun s p =>
           match p with
           | Di.Bare provider => Di.add provider s
           | Di.Tuple (interface, impl) => Di.bind interface impl s
           end)
        s providers.

(** [resolved ks s s']: from [s] to [s'] the binding table is unchanged and
    the cache has only gained instances, each for a bound key among [ks]. *)
Definition resolved (ks : list Interface) (s s' : Di.State) : Prop :=
  bindings s' = bindings s ∧
  ∀ k, instances s' !! k = instances s !! k ∨
       (instances s !! k = None ∧ k ∈ ks ∧
        is_Some (bindings s !! k) ∧ is_Some (instances s' !! k)).

(** Every key with a cached instance has a binding. *)
Definition cache_bound (s : Di.State) : Prop :=
  ∀ k, is_Some (instances s !! k) → is_Some (bindings s !! k).

(** The factories bound to the keys [ks] return, from every world. *)
Definition factories_return (ks : list Interface) (s : Di.State) : Prop :=
  ∀ k f, k ∈ ks → bindings s !! k = Some f → ∀ w, ∃ v w', invoke f w = Return v w'.

(** The annotated parameters of a signature, as [(name, annotation)] items. *)
Definition annotated (params : list Di.Param) : list (string * Interface) :=
  omap (fun p => pair (Di.name p) <$> Di.annotation p) params.

Definition return_item (sig : Di.Signature) : list (string * Interface) :=
  match Di.return_annotation sig with
  | Some r => [("return", r)]
  | None => []
  end.
End Programs.

(** [impls] called one after the other from world [w] return [vs] and leave
    world [w']. *)
Inductive calls_in_order `{Runtime} : list Provider → World → list Value → World → Prop :=
| calls_nil w : calls_in_order [] w [] w
| calls_cons f impls w v w1 vs w2 :
    invoke f w = Return v w1 →
    calls_in_order impls w1 vs w2 →
    calls_in_order (f :: impls) w (v :: vs) w2.

(** ** Notions used in the statements about value objects *)

(** The order of [sorted] on keys. *)
Definition str_le (a b : string) : Prop := String.leb a b = true.

(** A value is well formed when the keys of every dict in it are pairwise
    different, as in every dict the interpreter builds. *)
Fixpoint wf_value (v : Value) : bool :=
  match v with
  | VTuple vs | VList vs => forallb wf_value vs
  | VDict items =>
      bool_decide (NoDup items.*1) && forallb (fun kv => wf_value kv.2) items
  | _ => true
  end.

(** An instance is well formed when its field names are pairwise
    different and its fields hold well-formed values and instances. *)
Fixpoint wf_model (m : Domain.Model) : bool :=
  match m with
  | Domain.Instance _ _ fields =>
      bool_decide (NoDup fields.*1) &&
      forallb (fun kf => match kf.2 with
                         | Domain.Plain v => wf_value v
                         | Domain.Nested m' => wf_model m'
                         end) fields
  end.

(** The serialized form of an instance, field by field. *)
Definition serialized (kf : string * Domain.Field) : string * Value :=
  (kf.1, match kf.2 with
         | Domain.Plain v => v
         | Domain.Nested m => VDict (Domain.dict m)
         end).

(** Whether [hash] accepts a built-in value: lists and dicts are refused,
    a tuple is accepted when its elements are. *)
Fixpoint hashable (v : Value) : bool :=
  match v with
  | VTuple vs => forallb hashable vs
  | VList _ | VDict _ => false
  | _ => true
  end.

(** The keys that a list of arguments of [bind_all] writes, in order. *)
Definition keys_of (providers : list Di.ProviderArg) : list Interface :=
  (fun p => (binding_of p).1) <$> providers.

(** The parameter [self] of a method. *)
Definition self_param : Di.Param :=
  {| Di.name := "self"; Di.annotation := None; Di.default := None |}.

(** ** Concrete data to run the definitions on *)

(** A small runtime to run the definitions on: the world counts the calls
    made so far, callable 13 raises, every other callable returns a new
    object. *)
Definition counting : Runtime := {|
  World := nat;
  call callee := fun n =>
    if bool_decide (callee = 13%positive) then Raise (Failure 1) (S n)
    else Return (VObj (callee + Pos.of_succ_nat n)) (S n)
|}.

(** A fresh interpreter on [counting], before any call. *)
Definition start : @Di.State counting := @init counting 0%nat.

(** [def handler(service: Service): return service], with [Service] the
    key 1. *)
Definition handler : @Di.Function counting := {|
  Di.signature := {|
    Di.parameters := [{| Di.name := "service"; Di.annotation := Some 1%positive;
                         Di.default := None |}];
    Di.varkw := false;
    Di.return_annotation := None
  |};
  Di.body := fun bound => ret (default VNone (Di.arguments bound !! "service"))
|}.

(** [def make( **options ) -> Service: return options], with [Service] the
    key 1; [make_strict] is the same without [**options]. *)
Definition make : @Di.Function counting := {|
  Di.signature := {|
    Di.parameters := [];
    Di.varkw := true;
    Di.return_annotation := Some 1%positive
  |};
  Di.body := fun bound => ret (VDict (map_to_list (Di.extra bound)))
|}.

Definition make_strict : @Di.Function counting := {|
  Di.signature := {|
    Di.parameters := [];
    Di.varkw := false;
    Di.return_annotation := Some 1%positive
  |};
  Di.body := fun _ => ret VNone
|}.

(** The registry after [bind(Service, ServiceImpl)], key 1 bound to the
    callable 2. *)
Definition bound_service : @Di.State counting := Di.bind 1%positive (Ref 2%positive) start.

(** [Amount(value=1)] and [Price(amount=..., currency="EUR")], two value
    object classes, the second with a field that holds an instance of the
    first. *)
Definition Amount (value : Z) : Domain.Model :=
  Domain.Instance 10%positive [] [("value", Domain.Plain (VInt value))].

Definition Price (amount : Domain.Model) (currency : string) : Domain.Model :=
  Domain.Instance 11%positive []
    [("currency", Domain.Plain (VStr currency)); ("amount", Domain.Nested amount)].


(** [def __init__(self, service: Service): self.service = service], the
    initializer of a class made injectable; the body is given by the
    service it stores. *)
Definition controller_init : @Di.Function counting := {|
  Di.signature := {|
    Di.parameters := [self_param;
                      {| Di.name := "service"; Di.annotation := Some 1%positive;
                         Di.default := None |}];
    Di.varkw := false;
    Di.return_annotation := None
  |};
  Di.body := fun bound => ret (default VNone (Di.arguments bound !! "service"))
|}.

(** A hash to run the definitions on. *)
Definition toy_hashing : Domain.Hashing := {|
  Domain.hash_none := 0;
  Domain.hash_int := fun z => z;
  Domain.hash_str := fun s => Z.of_nat (String.length s);
  Domain.hash_obj := Zpos;
  Domain.hash_tuple := foldr (fun h acc => h + 31 * acc)%Z 7%Z
|}.

(** ** The registries *)

Section RegistryTheory.
Context `{Runtime}.

Import Di.
Local Abbreviation instances s := (ProviderRegistry.__instances__ (registry s)).
Local Abbreviation bindings s := (ProviderRegistry.__bindings__ (registry s)).

Lemma invoke_many (impls : list Provider) :
  invoke (Many impls) = let* vs := comprehension impls in ret (VList vs).
Proof.
  cbn [invoke]. f_equal.
  induction impls as [|f impls IH]; [done|].
  cbn [comprehension]. by rewrite <- IH.
Qed.

(** *** Shape of the state after each operation *)

Lemma get_cached k v s :
  instances s !! k = Some v → get k s = Return v s.
Proof.
  intros Hk. unfold get, ProviderRegistry.__getitem__, ProviderRegistry.get.
  rewrite Hk. cbn. destruct s as [[b i] w]; cbn in *.
  unfold ProviderRegistry.set_instance; cbn. by rewrite insert_id.
Qed.

Lemma get_uncached k s :
  instances s !! k = None →
  get k s =
    match bindings s !! k with
    | None => Raise (KeyError k) s
    | Some impl =>
        match invoke impl (world s) with
        | Return v w =>
            Return v {| registry := ProviderRegistry.set_instance k v (registry s);
                        world := w |}
        | Raise e w => Raise e {| registry := registry s; world := w |}
        end
    end.
Proof.
  intros Hk. unfold get, ProviderRegistry.__getitem__, ProviderRegistry.get.
  rewrite Hk. destruct (bindings s !! k) as [impl|]; cbn.
  - unfold mbind. by destruct (invoke impl (world s)).
  - by destruct s.
Qed.

Lemma get_bindings k s :
  bindings (state_of (get k s)) = bindings s.
Proof.
  destruct (instances s !! k) as [v|] eqn:Hk.
  - by rewrite (get_cached _ _ _ Hk).
  - rewrite (get_uncached _ _ Hk).
    destruct (bindings s !! k); [|done].
    by destruct (invoke p (world s)).
Qed.

Lemma get_instances k s k' :
  instances (state_of (get k s)) !! k' =
    match instances s !! k' with
    | Some v => Some v
    | None => if bool_decide (k' = k) then returned (get k s) else None
    end.
Proof.
  destruct (instances s !! k) as [v|] eqn:Hk.
  - rewrite (get_cached _ _ _ Hk). cbn.
    destruct (instances s !! k') eqn:Hk'; [done|].
    case_bool_decide; congruence.
  - rewrite (get_uncached _ _ Hk).
    destruct (bindings s !! k) as [impl|]; cbn.
    + destruct (invoke impl (world s)) as [v w|e w]; cbn.
      * case_bool_decide; subst.
        -- by rewrite lookup_insert_eq, Hk.
        -- rewrite lookup_insert_ne by done.
           by destruct (instances s !! k').
      * case_bool_decide; subst; [by rewrite Hk|].
        by destruct (instances s !! k').
    + case_bool_decide; subst; [by rewrite Hk|].
      by destruct (instances s !! k').
Qed.

Lemma resolved_refl ks s : resolved ks s s.
Proof. split; [done|]. by left. Qed.

Lemma resolved_world ks s w :
  resolved ks s {| registry := registry s; world := w |}.
Proof. split; [done|]. by left. Qed.

Lemma resolved_weaken ks ks' s s' :
  ks ⊆ ks' → resolved ks s s' → resolved ks' s s'.
Proof.
  intros Hsub [Hb Hi]. split; [done|].
  intros k. destruct (Hi k) as [->|(?&?&?&?)]; [by left|right]. auto.
Qed.

Lemma resolved_trans ks s1 s2 s3 :
  resolved ks s1 s2 → resolved ks s2 s3 → resolved ks s1 s3.
Proof.
  intros [Hb1 Hi1] [Hb2 Hi2]. split; [congruence|].
  intros k. destruct (Hi2 k) as [->|(Hn&?&Hbk&?)]; [apply Hi1|].
  destruct (Hi1 k) as [Heq|(?&?&?&Hsome)].
  - right. rewrite <- Heq, <- Hb1. auto.
  - rewrite Hn in Hsome. by destruct Hsome.
Qed.

Lemma get_resolved k s : resolved [k] s (state_of (get k s)).
Proof.
  split; [apply get_bindings|].
  intros k'. rewrite get_instances.
  destruct (instances s !! k') as [v|] eqn:Hk'; [by left|].
  case_bool_decide as Heq; [subst k'|by left].
  rewrite (get_uncached _ _ Hk').
  destruct (bindings s !! k) as [impl|] eqn:Hb; [|by left].
  destruct (invoke impl (world s)) as [v w|e w]; cbn; [|by left].
  right. split_and!; [done|set_solver|by eexists|by eexists].
Qed.

Lemma lift_world_registry {A} (m : M World A) s :
  registry (state_of (lift_world m s)) = registry s.
Proof. unfold lift_world. by destruct (m (world s)). Qed.

Lemma inject_kwargs_resolved items kwargs s :
  resolved items.*2 s (state_of (inject_kwargs items kwargs s)).
Proof.
  revert kwargs s. induction items as [|[n p] items IH]; intros kwargs s.
  - apply resolved_refl.
  - cbn [inject_kwargs].
    assert (items.*2 ⊆ ((n, p) :: items).*2) as Hsub by (cbn; set_solver).
    destruct (_ && _).
    + unfold mbind. pose proof (get_resolved p s) as Hg.
      destruct (get p s) as [v s1|e s1]; cbn in Hg |- *.
      * eapply resolved_trans.
        -- eapply resolved_weaken; [|exact Hg]. cbn. set_solver.
        -- eapply resolved_weaken; [exact Hsub|apply IH].
      * eapply resolved_weaken; [|exact Hg]. cbn. set_solver.
    + eapply resolved_weaken; [exact Hsub|apply IH].
Qed.

Lemma inject_resolved func args kwargs s :
  resolved (getfullargspec_annotations (signature func)).*2 s
    (state_of (inject func args kwargs s)).
Proof.
  unfold inject, mbind.
  pose proof (inject_kwargs_resolved
                (getfullargspec_annotations (signature func)) kwargs s) as Hr.
  destruct (inject_kwargs _ kwargs s) as [kw s1|e s1]; cbn in Hr |- *; [|done].
  eapply resolved_trans; [exact Hr|].
  pose proof (lift_world_registry (apply func args kw) s1) as Hreg.
  split; [by rewrite Hreg|]. intros k. left. by rewrite Hreg.
Qed.

Lemma bind_all_unfold providers s :
  bind_all providers s =
    foldl (fun s p => bind (binding_of p).1 (binding_of p).2 s) s providers.
Proof.
  unfold bind_all. revert s.
  induction providers as [|p ps IH]; intros s; [done|].
  cbn [foldl]. rewrite IH. by destruct p as [q|[i f]].
Qed.

Lemma bind_all_instances providers s :
  instances (bind_all providers s) = instances s.
Proof.
  rewrite bind_all_unfold. revert s.
  induction providers as [|p ps IH]; intros s; [done|].
  cbn [foldl]. by rewrite IH.
Qed.

Lemma bind_all_bound providers s k :
  is_Some (bindings s !! k) → is_Some (bindings (bind_all providers s) !! k).
Proof.
  rewrite bind_all_unfold. revert s.
  induction providers as [|p ps IH]; intros s Hk; [done|].
  cbn [foldl]. apply IH. cbn.
  destruct (decide ((binding_of p).1 = k)) as [<-|Hne].
  - rewrite lookup_insert_eq. by eexists.
  - by rewrite lookup_insert_ne.
Qed.

(** *** Invariants of programs *)

(** A cached instance is never replaced nor dropped. *)
Lemma exec_instance_kept o s k v :
  instances s !! k = Some v → instances (exec o s) !! k = Some v.
Proof.
  intros Hk. destruct o; cbn [exec]; try done.
  - by rewrite bind_all_instances.
  - destruct (get_resolved interface s) as [_ Hi].
    destruct (Hi k) as [->|(Hn&_)]; congruence.
  - destruct (inject_resolved func args kwargs s) as [_ Hi].
    destruct (Hi k) as [->|(Hn&_)]; congruence.
Qed.

Lemma run_instance_kept ops s k v :
  instances s !! k = Some v → instances (run ops s) !! k = Some v.
Proof.
  revert s. induction ops as [|o ops IH]; intros s Hk; [done|].
  cbn. apply IH. by apply exec_instance_kept.
Qed.

(** An operation that does not resolve [k] leaves it without an instance. *)
Lemma exec_unresolved o s k :
  resolves k o = false → instances s !! k = None → instances (exec o s) !! k = None.
Proof.
  intros Hr Hk. destruct o; cbn [exec]; try done.
  - by rewrite bind_all_instances.
  - destruct (get_resolved interface s) as [_ Hi].
    destruct (Hi k) as [->|(_&Hin&_)]; [done|].
    cbn in Hr. case_bool_decide; [done|set_solver].
  - destruct (inject_resolved func args kwargs s) as [_ Hi].
    destruct (Hi k) as [->|(_&Hin&_)]; [done|].
    cbn in Hr. by case_bool_decide.
Qed.

Lemma run_unresolved ops s k :
  forallb (fun o => negb (resolves k o)) ops = true →
  instances s !! k = None → instances (run ops s) !! k = None.
Proof.
  revert s. induction ops as [|o ops IH]; intros s Hr Hk; [done|].
  cbn in Hr. apply andb_true_iff in Hr as [Ho Hr].
  cbn. apply IH; [done|]. apply exec_unresolved; [|done].
  by destruct (resolves k o).
Qed.

Lemma resolved_cache_bound ks s s' :
  resolved ks s s' → cache_bound s → cache_bound s'.
Proof.
  intros [Hb Hi] Hinv k Hk. rewrite Hb.
  destruct (Hi k) as [Heq|(_&_&?&_)]; [|done].
  apply Hinv. by rewrite <- Heq.
Qed.

Lemma exec_cache_bound o s : cache_bound s → cache_bound (exec o s).
Proof.
  intros Hinv. destruct o; cbn [exec].
  - intros k Hk. apply (bind_all_bound [Tuple (interface, impl)]). by apply Hinv.
  - intros k Hk. apply (bind_all_bound [Bare provider]). by apply Hinv.
  - intros k Hk. apply bind_all_bound. apply Hinv.
    by rewrite bind_all_instances in Hk.
  - eapply resolved_cache_bound; [apply get_resolved|done].
  - eapply resolved_cache_bound; [apply inject_resolved|done].
  - done.
Qed.

Lemma run_cache_bound ops s : cache_bound s → cache_bound (run ops s).
Proof.
  revert s. induction ops as [|o ops IH]; intros s Hinv; [done|].
  cbn. apply IH. by apply exec_cache_bound.
Qed.

Lemma init_cache_bound w : cache_bound (init w).
Proof. intros k [v Hv]. cbn in Hv. by rewrite lookup_empty in Hv. Qed.
End RegistryTheory.

(** ** The claims about the registries *)

Section RegistryClaims.
Context `{Runtime}.

Import Di.
Local Abbreviation instances s := (ProviderRegistry.__instances__ (registry s)).
Local Abbreviation bindings s := (ProviderRegistry.__bindings__ (registry s)).

(** C1. After [bind(k, f)], for a key [k] that has not been resolved
    before: in the caching registry of [di.py] the first [get(k)] calls [f],
    caches what it returns and returns it (and raises what [f] raises); once
    a [get(k)] has returned [v], every later [get(k)], after any further use
    of the registry, returns the same [v] and leaves the whole state, world
    included, as it was, so [f] is not called again.  In the registry of
    [di/registry.py] every [get(k)] and [registry[k]], from any world, is
    the call [f()]. *)
Theorem get_after_bind (k : Interface) (f : Provider) (s : State) :
  instances s !! k = None →
  get k (bind k f s) = resolve_with k f (bind k f s) ∧
  (∀ v s1, get k (bind k f s) = Return v s1 →
     invoke f (world s) = Return v (world s1) ∧
     ∀ ops, get k (run ops s1) = Return v (run ops s1) ∧
            ProviderRegistry.get k (registry (run ops s1)) (world (run ops s1))
              = Return (v, registry (run ops s1)) (world (run ops s1))) ∧
  (∀ self w,
     Registry.ProviderRegistry.get k (Registry.ProviderRegistry.bind k f self) w
       = invoke f w ∧
     Registry.ProviderRegistry.__getitem__ k
       (Registry.ProviderRegistry.__setitem__ k f self) w = invoke f w).
Proof.
  intros Hk.
  assert (get k (bind k f s) = resolve_with k f (bind k f s)) as Hfirst.
  { rewrite get_uncached by done. cbn. by rewrite lookup_insert_eq. }
  split_and!; [done| |].
  - intros v s1 Hret. rewrite Hfirst in Hret. unfold resolve_with in Hret.
    cbn in Hret. destruct (invoke f (world s)) as [v' w'|e w'] eqn:Hf; [|done].
    injection Hret as -> <-. split; [done|]. intros ops.
    match goal with |- context [run ops ?s1] => set (s2 := run ops s1) end.
    assert (instances s2 !! k = Some v) as Hc.
    { apply run_instance_kept. cbn. by rewrite lookup_insert_eq. }
    pose proof (get_cached _ _ _ Hc) as Hg. split; [done|].
    unfold ProviderRegistry.get. rewrite Hc. cbn. unfold ret. do 2 f_equal.
    unfold ProviderRegistry.set_instance. rewrite insert_id by done.
    by destruct (registry s2).
  - intros self w.
    unfold Registry.ProviderRegistry.__getitem__, Registry.ProviderRegistry.__setitem__,
      Registry.ProviderRegistry.get. cbn. by rewrite lookup_insert_eq.
Qed.

(** C2, as the code has it.  The second [bind(k, f2)] replaces the entry of
    [k] in the binding table.  The [get(k)] that follows it calls [f2] and
    returns its result exactly when [k] has no cached instance; otherwise
    it returns the cached instance and [f2] is not called.  [k] has no
    cached instance after the second bind when it had none before the
    first bind and nothing between the two binds resolved [k]; and right
    after a [get(k)] that raised while [k] was bound to [f1] and uncached,
    which raised what [f1] raised.  A [get(k)] that returns while [k] is
    bound to [f1] and uncached returns what [f1] returns, and after a later
    [bind(k, f2)], whatever happens before and after that bind, [get(k)]
    returns that same instance. *)
Theorem rebind_unresolved (k : Interface) (f1 f2 : Provider) (s : State) :
  (∀ s', bindings (bind k f2 s') !! k = Some f2) ∧
  (∀ s', get k (bind k f2 s') =
           match instances s' !! k with
           | Some v => Return v (bind k f2 s')
           | None => resolve_with k f2 (bind k f2 s')
           end) ∧
  (∀ ops,
     instances s !! k = None →
     forallb (fun o => negb (resolves k o)) ops = true →
     let s2 := bind k f2 (run ops (bind k f1 s)) in
     instances s2 !! k = None ∧ get k s2 = resolve_with k f2 s2) ∧
  (∀ s1,
     instances s1 !! k = None →
     bindings s1 !! k = Some f1 →
     (∀ v s2, get k s1 = Return v s2 →
        invoke f1 (world s1) = Return v (world s2) ∧
        ∀ ops ops',
          get k (run ops' (bind k f2 (run ops s2)))
            = Return v (run ops' (bind k f2 (run ops s2)))) ∧
     (∀ e s2, get k s1 = Raise e s2 →
        invoke f1 (world s1) = Raise e (world s2) ∧
        instances s2 !! k = None ∧
        get k (bind k f2 s2) = resolve_with k f2 (bind k f2 s2))).
Proof.
  assert (∀ s', instances s' !! k = None →
                get k (bind k f2 s') = resolve_with k f2 (bind k f2 s')) as Hfresh.
  { intros s' Hn. rewrite get_uncached by done. cbn. by rewrite lookup_insert_eq. }
  split_and!.
  - intros s'. cbn. by rewrite lookup_insert_eq.
  - intros s'. destruct (instances s' !! k) as [v|] eqn:Hv;
      [by apply get_cached|by apply Hfresh].
  - intros ops Hk Hops s2.
    assert (instances s2 !! k = None) as Hn by (subst s2; cbn; by apply run_unresolved).
    split; [done|]. by apply Hfresh.
  - intros s1 Hn Hb. rewrite (get_uncached _ _ Hn), Hb. split.
    + intros v s2 Hget.
      destruct (invoke f1 (world s1)) as [v' w|e w]; [|done].
      injection Hget as -> <-. split; [done|]. intros ops ops'.
      apply get_cached. apply run_instance_kept. cbn.
      apply (run_instance_kept ops
               {| registry := ProviderRegistry.set_instance k v (registry s1);
                  world := w |}).
      cbn. by rewrite lookup_insert_eq.
    + intros e s2 Hget.
      destruct (invoke f1 (world s1)) as [v' w|e' w]; [done|].
      injection Hget as -> <-. split_and!; [done..|]. by apply Hfresh.
Qed.

(** C3. Resolving a key that has no binding raises [KeyError], through the
    method, through item access and through the module-level function: in
    the registry of [di/registry.py] in any state, and in the registry of
    [di.py] in every state that a program reaches from a fresh registry. *)
Theorem get_unbound (k : Interface) :
  (∀ self w,
     Registry.ProviderRegistry.bindings self !! k = None →
     Registry.ProviderRegistry.get k self w = Raise (KeyError k) w ∧
     Registry.ProviderRegistry.__getitem__ k self w = Raise (KeyError k) w) ∧
  (∀ ops w0,
     let s := run ops (init w0) in
     ProviderRegistry.bindings (registry s) !! k = None →
     ProviderRegistry.get k (registry s) (world s) = Raise (KeyError k) (world s) ∧
     ProviderRegistry.__getitem__ k (registry s) (world s) = Raise (KeyError k) (world s) ∧
     get k s = Raise (KeyError k) s).
Proof.
  split.
  - intros self w Hb. unfold Registry.ProviderRegistry.__getitem__,
      Registry.ProviderRegistry.get, Registry.ProviderRegistry.bindings in *.
    by rewrite Hb.
  - intros ops w0 s Hb. unfold ProviderRegistry.bindings in Hb.
    assert (instances s !! k = None) as Hn.
    { destruct (instances s !! k) as [v|] eqn:Hv; [|done].
      destruct (run_cache_bound ops (init w0) (init_cache_bound w0) k) as [f Hf];
        [by eexists|].
      fold s in Hf. congruence. }
    unfold ProviderRegistry.__getitem__.
    assert (ProviderRegistry.get k (registry s) (world s) = Raise (KeyError k) (world s))
      as Hm by (unfold ProviderRegistry.get; by rewrite Hn, Hb).
    split_and!; [done..|].
    rewrite get_uncached by done. by rewrite Hb.
Qed.
End RegistryClaims.

(** The claims above on the runtime [counting]. *)

Section RegistryExamples.
Local Existing Instance counting.
Local Open Scope positive_scope.

Lemma get_after_bind_witness :
  Di.get 1 (Di.bind 1 (Ref 2) start)
    = resolve_with 1 (Ref 2) (Di.bind 1 (Ref 2) start).
Proof.
  apply (get_after_bind 1 (Ref 2) start). reflexivity.
Defined.

Lemma latest_factory_wins_fails : ¬ latest_factory_wins.
Proof.
  intros Hclaim.
  specialize (Hclaim 1 (Ref 2) (Ref 3) [OGet 1] 0%nat).
  vm_compute in Hclaim. discriminate Hclaim.
Qed.

Lemma rebind_unresolved_witness :
  returned (Di.get 1 (Di.bind 1 (Ref 3) (run [OGet 5] (Di.bind 1 (Ref 2) start))))
    = Some (VObj 4) ∧
  returned (Di.get 1 (Di.bind 1 (Ref 3)
                        (run [OGet 7] (state_of (Di.get 1 (Di.bind 1 (Ref 2) start))))))
    = Some (VObj 3).
Proof.
  split.
  - rewrite (proj2 (proj1 (proj2 (proj2 (rebind_unresolved 1 (Ref 2) (Ref 3) start)))
                      [OGet 5] eq_refl eq_refl)).
    reflexivity.
  - destruct (proj2 (proj2 (proj2 (rebind_unresolved 1 (Ref 2) (Ref 3) start)))
                (Di.bind 1 (Ref 2) start) eq_refl eq_refl) as [Hreturned _].
    destruct (Hreturned (VObj 3) (state_of (Di.get 1 (Di.bind 1 (Ref 2) start))) eq_refl)
      as [_ Hlater].
    exact (f_equal returned (Hlater [OGet 7] [])).
Defined.

Lemma get_unbound_witness :
  Di.get 7 (run [OBind 1 (Ref 2); OGet 1; OGet 7] (@init counting 0%nat))
    = Raise (KeyError 7) (run [OBind 1 (Ref 2); OGet 1; OGet 7] (@init counting 0%nat)).
Proof.
  apply (proj2 (get_unbound (H := counting) 7)
           [OBind 1 (Ref 2); OGet 1; OGet 7] 0%nat).
  reflexivity.
Defined.
End RegistryExamples.

(** ** The module-level functions of [di.py] *)

Section FunctionTheory.
Context `{Runtime}.

Import Di.
Local Abbreviation instances s := (ProviderRegistry.__instances__ (registry s)).
Local Abbreviation bindings s := (ProviderRegistry.__bindings__ (registry s)).

Lemma bind_all_app (ps qs : list ProviderArg) (s : State) :
  bind_all (ps ++ qs)%list s = bind_all qs (bind_all ps s).
Proof. unfold bind_all. apply foldl_app. Qed.

Lemma bind_all_cons (p : ProviderArg) (ps : list ProviderArg) (s : State) :
  bind_all (p :: ps) s = bind_all ps (bind (binding_of p).1 (binding_of p).2 s).
Proof. unfold bind_all. cbn [foldl]. by destruct p as [q|[i f]]. Qed.

Lemma bind_all_other (ps : list ProviderArg) (s : State) (k : Interface) :
  Forall (fun q => (binding_of q).1 ≠ k) ps →
  bindings (bind_all ps s) !! k = bindings s !! k.
Proof.
  intros Hps. revert s. induction Hps as [|p ps Hp _ IH]; intros s; [done|].
  rewrite bind_all_cons, IH. cbn. by rewrite lookup_insert_ne.
Qed.

Lemma bind_all_world (ps : list ProviderArg) (s : State) :
  world (bind_all ps s) = world s.
Proof.
  revert s. induction ps as [|p ps IH]; intros s; [done|].
  by rewrite bind_all_cons, IH.
Qed.

Lemma comprehension_calls (impls : list Provider) (w : World) (vs : list Value) (w' : World) :
  comprehension impls w = Return vs w' ↔ calls_in_order impls w vs w'.
Proof.
  split.
  - revert w vs. induction impls as [|f impls IH]; intros w vs Hc; cbn in Hc.
    + injection Hc as <- <-. constructor.
    + unfold mbind in Hc.
      destruct (invoke f w) as [v w1|] eqn:Hf; [|done].
      destruct (comprehension impls w1) as [vs' w2|] eqn:Hrest; [|done].
      injection Hc as <- <-. econstructor; [done|by apply IH].
  - induction 1 as [|f impls w v w1 vs w2 Hf _ IH]; [done|].
    cbn. unfold mbind. by rewrite Hf, IH.
Qed.

(** C6. [bind_all(A, (B, implB))] leaves the state that [bind(A, A)] followed
    by [bind(B, implB)] leaves.  For every argument list, [bind_all] is the
    application of each entry in order, a bare provider through [add] and a
    pair through [bind]; for a key, the last entry that names it decides its
    binding, keys that no entry names keep theirs, and neither the cache
    nor the world is touched. *)
Theorem bind_all_in_order (providers : list ProviderArg) (s : State) :
  (∀ A B implB,
     bind_all [Bare A; Tuple (B, implB)] s = bind B implB (bind A (Ref A) s)) ∧
  bind_all providers s = bind_all_spec providers s ∧
  (∀ before p after,
     providers = (before ++ p :: after)%list →
     Forall (fun q => (binding_of q).1 ≠ (binding_of p).1) after →
     bindings (bind_all providers s) !! (binding_of p).1 = Some (binding_of p).2) ∧
  (∀ k, Forall (fun q => (binding_of q).1 ≠ k) providers →
        bindings (bind_all providers s) !! k = bindings s !! k) ∧
  instances (bind_all providers s) = instances s ∧
  world (bind_all providers s) = world s.
Proof.
  split_and!.
  - done.
  - unfold bind_all, bind_all_spec. revert s.
    induction providers as [|p ps IH]; intros s; [done|].
    cbn [foldl]. rewrite IH. by destruct p as [q|[i f]].
  - intros before p after -> Hafter.
    rewrite bind_all_app, bind_all_cons, bind_all_other by done.
    cbn. by rewrite lookup_insert_eq.
  - intros k. apply bind_all_other.
  - apply bind_all_instances.
  - apply bind_all_world.
Qed.

(** C7. [provide_many(I, impls)] is a binding for [I] whose factory, called
    from any world, returns exactly the list of what the elements of
    [impls] return when they are called one after the other in order; in
    particular [provide_many(I, [f1, f2])()] is [[f1(), f2()]]. *)
Theorem provide_many_in_order (interface : Interface) (impls : list Provider) :
  (provide_many interface impls).1 = interface ∧
  (∀ w r w',
     invoke (provide_many interface impls).2 w = Return r w' ↔
     ∃ vs, r = VList vs ∧ calls_in_order impls w vs w') ∧
  (∀ f1 f2 w v1 w1 v2 w2,
     invoke f1 w = Return v1 w1 →
     invoke f2 w1 = Return v2 w2 →
     invoke (provide_many interface [f1; f2]).2 w = Return (VList [v1; v2]) w2).
Proof.
  split_and!; [done| |].
  - intros w r w'. cbn [provide_many snd]. rewrite invoke_many. unfold mbind.
    split.
    + destruct (comprehension impls w) as [vs w1|] eqn:Hc; [|done].
      intros [= <- <-]. exists vs. split; [done|]. by apply comprehension_calls.
    + intros (vs & -> & Hc). apply comprehension_calls in Hc. by rewrite Hc.
  - intros f1 f2 w v1 w1 v2 w2 H1 H2. cbn [provide_many snd].
    rewrite invoke_many. unfold mbind. cbn. unfold mbind. by rewrite H1, H2.
Qed.
End FunctionTheory.

Section FunctionExamples.
Local Existing Instance counting.
Local Open Scope positive_scope.

Lemma bind_all_in_order_witness :
  Di.ProviderRegistry.__bindings__
    (Di.registry (Di.bind_all [Di.Bare 1; Di.Tuple (2, Ref 3); Di.Tuple (1, Ref 4)] start))
    !! 1 = Some (Ref 4).
Proof.
  apply (proj1 (proj2 (proj2 (bind_all_in_order (H := counting)
           [Di.Bare 1; Di.Tuple (2, Ref 3); Di.Tuple (1, Ref 4)] start)))
           [Di.Bare 1; Di.Tuple (2, Ref 3)] (Di.Tuple (1, Ref 4)) []).
  - reflexivity.
  - constructor.
Defined.

Lemma provide_many_in_order_witness :
  invoke (Di.provide_many 9 [Ref 1; Ref 2]).2 (0%nat : World)
    = Return (VList [VObj 2; VObj 4]) 2%nat.
Proof.
  apply (proj2 (proj2 (provide_many_in_order (H := counting) 9 [Ref 1; Ref 2]))
           (Ref 1) (Ref 2) 0%nat (VObj 2) 1%nat (VObj 4) 2%nat).
  - reflexivity.
  - reflexivity.
Defined.
End FunctionExamples.

(** ** The [inject] decorator *)

Section InjectTheory.
Context `{Runtime}.

Import Di.
Local Abbreviation instances s := (ProviderRegistry.__instances__ (registry s)).
Local Abbreviation bindings s := (ProviderRegistry.__bindings__ (registry s)).

Lemma setitem_fresh {A} (k : string) (v : A) (d : list (string * A)) :
  k ∉ d.*1 → setitem k v d = (d ++ [(k, v)])%list.
Proof.
  induction d as [|[k' v'] d IH]; intros Hk; [done|].
  cbn. cbn in Hk. apply not_elem_of_cons in Hk as [Hne Hk].
  rewrite bool_decide_false by done. by rewrite IH.
Qed.

Lemma annotated_names (params : list Param) : (annotated params).*1 ⊆ name <$> params.
Proof.
  induction params as [|p ps IH]; [done|].
  unfold annotated. cbn. destruct (annotation p); cbn; set_solver.
Qed.

Lemma foldl_setitem_fresh (acc : list (string * Interface)) (params : list Param) :
  NoDup (name <$> params) →
  (∀ n, n ∈ acc.*1 → n ∉ name <$> params) →
  foldl (fun annotations param =>
           match annotation param with
           | Some a => setitem (name param) a annotations
           | None => annotations
           end) acc params
  = (acc ++ annotated params)%list.
Proof.
  revert acc. induction params as [|p ps IH]; intros acc Hnd Hacc.
  - cbn. by rewrite app_nil_r.
  - cbn [foldl fmap list_fmap] in *. apply NoDup_cons in Hnd as [Hp Hnd].
    unfold annotated. cbn [omap list_omap].
    destruct (annotation p) as [a|] eqn:Ha; cbn.
    + rewrite setitem_fresh by (intros Hin; apply Hacc in Hin; set_solver).
      fold (annotated ps). rewrite IH; [by rewrite <- app_assoc|done|].
      intros n Hn. rewrite fmap_app in Hn. cbn in Hn.
      apply elem_of_app in Hn as [Hn|Hn].
      * apply Hacc in Hn. set_solver.
      * apply list_elem_of_singleton in Hn as ->. done.
    + apply IH; [done|]. intros n Hn. apply Hacc in Hn. set_solver.
Qed.

(** For a signature whose parameter names are pairwise different and
    different from ["return"], as the grammar of Python has it, the
    annotations are the return annotation followed by the annotated
    parameters. *)
Lemma getfullargspec_annotations_unfold (sig : Signature) :
  NoDup ("return" :: (name <$> parameters sig)) →
  getfullargspec_annotations sig = (return_item sig ++ annotated (parameters sig))%list.
Proof.
  intros Hnd. apply NoDup_cons in Hnd as [Hret Hnd].
  unfold getfullargspec_annotations. fold (return_item sig).
  apply foldl_setitem_fresh; [done|].
  intros n Hn. unfold return_item in Hn.
  destruct (return_annotation sig); cbn in Hn; [|by apply elem_of_nil in Hn].
  by apply list_elem_of_singleton in Hn as ->.
Qed.

Lemma annotated_NoDup (params : list Param) :
  NoDup (name <$> params) → NoDup (annotated params).*1.
Proof.
  induction params as [|p ps IH]; intros Hnd; [constructor|].
  cbn in Hnd. apply NoDup_cons in Hnd as [Hp Hnd].
  unfold annotated. cbn. destruct (annotation p); cbn; [|by apply IH].
  apply NoDup_cons. split; [|by apply IH].
  intros Hin. by apply annotated_names in Hin.
Qed.

Lemma annotations_NoDup (sig : Signature) :
  NoDup ("return" :: (name <$> parameters sig)) →
  NoDup (getfullargspec_annotations sig).*1.
Proof.
  intros Hnd. rewrite getfullargspec_annotations_unfold by done.
  apply NoDup_cons in Hnd as [Hret Hnd]. rewrite fmap_app.
  apply NoDup_app. split_and!.
  - unfold return_item. destruct (return_annotation sig); cbn;
      [apply NoDup_singleton|constructor].
  - intros n Hn Hn'. apply annotated_names in Hn'.
    unfold return_item in Hn. destruct (return_annotation sig); cbn in Hn.
    + by apply list_elem_of_singleton in Hn as ->.
    + by apply elem_of_nil in Hn.
  - by apply annotated_NoDup.
Qed.

Lemma annotated_elem (params : list Param) (param : Param) (a : Interface) :
  param ∈ params → annotation param = Some a → (name param, a) ∈ annotated params.
Proof.
  intros Hin Ha. unfold annotated. apply list_elem_of_omap.
  exists param. split; [done|]. by rewrite Ha.
Qed.

Lemma resolved_instance_kept ks s s' k v :
  resolved ks s s' → instances s !! k = Some v → instances s' !! k = Some v.
Proof. intros [_ Hi] Hk. destruct (Hi k) as [->|(Hn&_)]; congruence. Qed.

Lemma factories_return_resolved ks ks' s s' :
  resolved ks' s s' → factories_return ks s → factories_return ks s'.
Proof. intros [Hb _] Hf k f Hk Hkf. apply (Hf k f Hk). by rewrite <- Hb. Qed.

(** Resolving a bound key whose factory returns, returns: the instance is
    in the cache afterwards. *)
Lemma get_returns k s :
  is_Some (bindings s !! k) → factories_return [k] s →
  ∃ v s', get k s = Return v s' ∧ instances s' !! k = Some v.
Proof.
  intros [f Hf] Hret.
  destruct (instances s !! k) as [v|] eqn:Hk.
  - exists v, s. split; [by apply get_cached|done].
  - rewrite (get_uncached _ _ Hk), Hf.
    destruct (Hret k f ltac:(set_solver) Hf (world s)) as (v & w' & ->).
    eexists _, _. split; [done|]. cbn. by rewrite lookup_insert_eq.
Qed.

(** The loop of the wrapper, for annotations with pairwise different
    names and factories that return. *)
Lemma inject_kwargs_returns items kwargs s :
  NoDup items.*1 →
  factories_return items.*2 s →
  ∃ kwargs' s',
    inject_kwargs items kwargs s = Return kwargs' s' ∧
    resolved items.*2 s s' ∧
    (∀ n v, kwargs !! n = Some v → kwargs' !! n = Some v) ∧
    (∀ n, n ∉ items.*1 → kwargs' !! n = kwargs !! n) ∧
    (∀ n a, (n, a) ∈ items → is_Some (bindings s !! a) → kwargs !! n = None →
            ∃ v, kwargs' !! n = Some v ∧ instances s' !! a = Some v).
Proof.
  revert kwargs s. induction items as [|[n p] items IH]; intros kwargs s Hnd Hret.
  - exists kwargs, s. split_and!; [done|apply resolved_refl|done|done|].
    intros n a Hin. by apply elem_of_nil in Hin.
  - cbn in Hnd. apply NoDup_cons in Hnd as [Hn Hnd].
    assert (factories_return items.*2 s) as Hret_tl
      by (intros k f Hk; apply Hret; cbn; set_solver).
    assert (items.*2 ⊆ ((n, p) :: items).*2) as Hsub by (cbn; set_solver).
    cbn [inject_kwargs].
    destruct (bool_decide (p ∈ dom (ProviderRegistry.bindings (registry s)))
              && bool_decide (n ∉ dom kwargs)) eqn:Hcond.
    + apply andb_true_iff in Hcond as [Hp Hk].
      apply bool_decide_eq_true in Hp, Hk.
      apply elem_of_dom in Hp. apply not_elem_of_dom in Hk.
      destruct (get_returns p s Hp) as (v & s1 & Hget & Hv).
      { intros k f Hin. apply Hret. cbn. set_solver. }
      pose proof (get_resolved p s) as Hres. rewrite Hget in Hres. cbn in Hres.
      destruct (IH (<[n := v]> kwargs) s1 Hnd) as (kw & s2 & Hloop & Hres2 & Hpass & Hout & Hin).
      { eapply factories_return_resolved; [exact Hres|done]. }
      exists kw, s2. unfold mbind. rewrite Hget. split_and!.
      * done.
      * eapply resolved_trans; [|eapply resolved_weaken; [exact Hsub|exact Hres2]].
        eapply resolved_weaken; [|exact Hres]. cbn. set_solver.
      * intros m u Hm. apply Hpass. rewrite lookup_insert_ne; [done|congruence].
      * intros m Hm. cbn in Hm. apply not_elem_of_cons in Hm as [Hne Hm].
        rewrite Hout by done. by rewrite lookup_insert_ne.
      * intros m a Hma Hb Hkm. apply elem_of_cons in Hma as [[= -> ->]|Hma].
        -- exists v. split.
           ++ rewrite Hout by done. by rewrite lookup_insert_eq.
           ++ by eapply resolved_instance_kept.
        -- apply Hin; [done|by rewrite (proj1 Hres)|].
           rewrite lookup_insert_ne; [done|].
           intros <-. apply Hn. apply list_elem_of_fmap. by exists (n, a).
    + destruct (IH kwargs s Hnd Hret_tl) as (kw & s2 & Hloop & Hres2 & Hpass & Hout & Hin).
      exists kw, s2. split_and!; [done| |done| |].
      * eapply resolved_weaken; [exact Hsub|exact Hres2].
      * intros m Hm. cbn in Hm. apply not_elem_of_cons in Hm as [_ Hm]. by apply Hout.
      * intros m a Hma Hb Hkm. apply elem_of_cons in Hma as [[= -> ->]|Hma];
          [|by apply Hin].
        apply andb_false_iff in Hcond as [Hc|Hc]; apply bool_decide_eq_false in Hc.
        -- exfalso. apply Hc. by apply elem_of_dom.
        -- exfalso. apply Hc. by apply not_elem_of_dom.
Qed.

(** Whatever the factories do, a keyword that the caller supplies reaches
    the end of the loop unchanged. *)
Lemma inject_kwargs_keeps items kwargs s kwargs' s' :
  inject_kwargs items kwargs s = Return kwargs' s' →
  ∀ n v, kwargs !! n = Some v → kwargs' !! n = Some v.
Proof.
  revert kwargs s. induction items as [|[m p] items IH]; intros kwargs s Hloop n v Hn.
  - cbn in Hloop. by injection Hloop as <- _.
  - cbn [inject_kwargs] in Hloop.
    destruct (bool_decide (p ∈ dom (ProviderRegistry.bindings (registry s)))
              && bool_decide (m ∉ dom kwargs)) eqn:Hcond.
    + apply andb_true_iff in Hcond as [_ Hk].
      apply bool_decide_eq_true in Hk. apply not_elem_of_dom in Hk.
      unfold mbind in Hloop. destruct (get p s) as [u s1|]; [|done].
      eapply IH; [exact Hloop|]. rewrite lookup_insert_ne; [done|congruence].
    + by eapply IH.
Qed.

Lemma inject_unfold func args kwargs s :
  inject func args kwargs s =
    match inject_kwargs (getfullargspec_annotations (signature func)) kwargs s with
    | Return kwargs' s' => lift_world (apply func args kwargs') s'
    | Raise e s' => Raise e s'
    end.
Proof. done. Qed.

(** A value passed positionally for the first parameter and a keyword of
    the same name cannot both be bound. *)
Lemma bind_arguments_clash sig v args kwargs param rest :
  parameters sig = param :: rest →
  is_Some (kwargs !! name param) →
  bind_arguments sig (v :: args) kwargs
    = inl (TypeError "got multiple values for argument").
Proof.
  intros Hparams Hk. unfold bind_arguments. rewrite Hparams. cbn.
  rewrite bool_decide_true; [done|].
  apply Exists_cons_hd. by apply elem_of_dom.
Qed.

(** When the binding of the arguments succeeds, a keyword that names a
    parameter is what the body sees under that name. *)
Lemma bind_arguments_keyword sig args kwargs bound n v :
  bind_arguments sig args kwargs = inr bound →
  n ∈ name <$> parameters sig →
  kwargs !! n = Some v →
  arguments bound !! n = Some v.
Proof.
  unfold bind_arguments. intros Hbind Hn Hk.
  case_bool_decide as Hclash; [done|].
  destruct (negb (varkw sig) && _); [done|].
  case_bool_decide; [done|]. case_bool_decide; [|done].
  injection Hbind as <-. cbn.
  apply lookup_union_Some_l. rewrite lookup_union_r.
  - apply map_lookup_filter_Some. by split.
  - apply not_elem_of_list_to_map. intros Hin.
    apply Hclash. apply Exists_exists. exists n. split; [|by apply elem_of_dom].
    rewrite fst_zip in Hin; [done|]. rewrite length_take. lia.
Qed.

(** What the loop of the wrapper adds to the keywords: only names of
    annotations that are bound keys. *)
Lemma inject_kwargs_dom items kwargs s kwargs' s' n :
  inject_kwargs items kwargs s = Return kwargs' s' →
  is_Some (kwargs' !! n) →
  is_Some (kwargs !! n) ∨ ∃ a, (n, a) ∈ items ∧ is_Some (bindings s !! a).
Proof.
  revert kwargs s. induction items as [|[m p] items IH]; intros kwargs s Hrun Hn.
  - cbn in Hrun. injection Hrun as <- _. by left.
  - cbn [inject_kwargs] in Hrun.
    destruct (bool_decide (p ∈ dom (ProviderRegistry.bindings (registry s)))
              && bool_decide (m ∉ dom kwargs)) eqn:Hcond.
    + apply andb_true_iff in Hcond as [Hp _]. apply bool_decide_eq_true in Hp.
      apply elem_of_dom in Hp.
      unfold mbind in Hrun. destruct (get p s) as [v s1|] eqn:Hget; [|done].
      pose proof (get_bindings p s) as Hgb. rewrite Hget in Hgb. cbn in Hgb.
      destruct (IH _ _ Hrun Hn) as [Hk|(a & Hin & Ha)].
      * destruct (decide (m = n)) as [->|Hne].
        -- right. exists p. split; [left|done].
        -- left. by rewrite lookup_insert_ne in Hk.
      * right. exists a. split; [by right|]. by rewrite <- Hgb.
    + destruct (IH _ _ Hrun Hn) as [Hk|(a & Hin & Ha)]; [by left|].
      right. exists a. split; [by right|done].
Qed.

(** When the binding of the arguments succeeds, a keyword that names no
    parameter is what the body finds in [**kwargs], and the callable takes
    [**kwargs]. *)
Lemma bind_arguments_extra sig args kwargs bound n :
  bind_arguments sig args kwargs = inr bound →
  n ∉ name <$> parameters sig →
  extra bound !! n = kwargs !! n ∧ (is_Some (kwargs !! n) → varkw sig = true).
Proof.
  unfold bind_arguments. intros Hbind Hn.
  case_bool_decide as Hclash; [done|].
  destruct (varkw sig) eqn:Hvar; cbn [negb andb] in Hbind.
  - case_bool_decide; [done|]. case_bool_decide; [|done].
    injection Hbind as <-. cbn. split; [|done].
    destruct (kwargs !! n) as [v|] eqn:Hk.
    + apply map_lookup_filter_Some. by split.
    + apply map_lookup_filter_None. by left.
  - case_bool_decide as Hsub; [done|]. case_bool_decide; [done|]. case_bool_decide; [|done].
    injection Hbind as <-. cbn.
    assert (kwargs !! n = None) as Hk.
    { apply not_elem_of_dom. intros Hd. apply Hn.
      apply Hsub in Hd. by apply elem_of_list_to_set in Hd. }
    rewrite Hk. split; [|by intros []]. apply map_lookup_filter_None. by left.
Qed.

(** A call without positional arguments binds when every keyword names a
    parameter, or the callable takes [**kwargs], and every parameter has a
    keyword or a default. *)
Lemma bind_arguments_keywords sig kwargs :
  varkw sig = true ∨ (∀ n, is_Some (kwargs !! n) → n ∈ name <$> parameters sig) →
  Forall (fun p => is_Some (kwargs !! name p) ∨ is_Some (default p)) (parameters sig) →
  ∃ bound, bind_arguments sig [] kwargs = inr bound.
Proof.
  intros Hkw Hall. unfold bind_arguments. cbn [length take].
  rewrite bool_decide_false by (by intros ?%Exists_nil).
  assert (negb (varkw sig)
          && bool_decide (¬ dom kwargs ⊆ list_to_set (name <$> parameters sig)) = false)
    as ->.
  { destruct Hkw as [->|Hkw]; [done|]. apply andb_false_iff. right.
    apply bool_decide_eq_false. intros Hnot. apply Hnot. intros n Hn.
    apply elem_of_list_to_set, Hkw. by apply elem_of_dom. }
  rewrite bool_decide_false by lia.
  rewrite bool_decide_true; [by eexists|].
  apply Forall_forall. intros n Hn.
  apply list_elem_of_fmap in Hn as (q & -> & Hq).
  rewrite Forall_forall in Hall.
  rewrite dom_union_L, elem_of_union.
  destruct (Hall q Hq) as [[v Hv]|[v Hv]].
  - left. apply elem_of_dom. exists v. rewrite lookup_union_r by done.
    apply map_lookup_filter_Some. split; [done|]. cbn.
    apply list_elem_of_fmap. by exists q.
  - right. rewrite dom_list_to_map_L. apply elem_of_list_to_set.
    apply list_elem_of_fmap. exists (name q, v). split; [done|].
    apply list_elem_of_omap. exists q. split; [done|]. by rewrite Hv.
Qed.

(** Under the conditions of [bind_arguments_keywords] on the caller's
    keywords, the keywords that the loop of the wrapper returns bind. *)
Lemma injected_keywords_bind (sig : Signature) (kwargs kwargs' : gmap string Value)
    (s s' : State) :
  NoDup ("return" :: (name <$> parameters sig)) →
  inject_kwargs (getfullargspec_annotations sig) kwargs s = Return kwargs' s' →
  (∀ n a, (n, a) ∈ getfullargspec_annotations sig → is_Some (bindings s !! a) →
          kwargs !! n = None → is_Some (kwargs' !! n)) →
  varkw sig = true ∨
    ((∀ n, is_Some (kwargs !! n) → n ∈ name <$> parameters sig) ∧
     ∀ r, return_annotation sig = Some r → bindings s !! r = None) →
  Forall (fun q => is_Some (kwargs !! name q) ∨ is_Some (default q) ∨
                   ∃ b, annotation q = Some b ∧ is_Some (bindings s !! b))
         (parameters sig) →
  ∃ bound, bind_arguments sig [] kwargs' = inr bound.
Proof.
  intros Hnd Hloop Hin Hkw Hall. apply bind_arguments_keywords.
  - destruct Hkw as [Hvar|[Hnames Hreturn]]; [by left|right].
    intros n Hn.
    destruct (inject_kwargs_dom _ _ _ _ _ n Hloop Hn) as [Hk|(a & Hitem & Hb)];
      [by apply Hnames|].
    rewrite getfullargspec_annotations_unfold in Hitem by done.
    apply elem_of_app in Hitem as [Hitem|Hitem].
    + unfold return_item in Hitem.
      destruct (return_annotation sig) as [r|] eqn:Hr; [|by apply elem_of_nil in Hitem].
      apply list_elem_of_singleton in Hitem as [= -> ->].
      rewrite (Hreturn r eq_refl) in Hb. by destruct Hb.
    + apply annotated_names. apply list_elem_of_fmap. by exists (n, a).
  - rewrite Forall_forall in Hall. apply Forall_forall. intros q Hq.
    destruct (Hall q Hq) as [[u Hu]|[Hd|(b & Hb & Hbound)]]; [|by right|].
    + left. exists u. by eapply inject_kwargs_keeps.
    + left. destruct (kwargs !! name q) as [u|] eqn:Hk.
      * exists u. by eapply inject_kwargs_keeps.
      * apply (Hin (name q) b); [|done..].
        rewrite getfullargspec_annotations_unfold by done.
        apply elem_of_app. right. by apply annotated_elem.
Qed.


(** C10. The annotations that the wrapper walks through include the return
    annotation under the name ["return"].  When the return annotation [r]
    of [func] is a bound key, the caller passes no keyword ["return"], and
    the factories of the annotated keys return, the wrapper calls [func]
    with keywords that hold, under ["return"], the instance the registry
    resolves [r] to.  A callable that takes [**kwargs] runs with that
    instance as an extra keyword named ["return"], whenever the arguments
    bind, as they do in a call without positional arguments in which every
    parameter has a keyword, a default or an annotation that is a bound
    key; for a callable that takes no [**kwargs] the call raises
    [TypeError]. *)
Theorem inject_return_annotation (func : Function) (args : list Value)
    (kwargs : gmap string Value) (s : State) (r : Interface) :
  NoDup ("return" :: (name <$> parameters (signature func))) →
  return_annotation (signature func) = Some r →
  is_Some (bindings s !! r) →
  kwargs !! "return" = None →
  factories_return (getfullargspec_annotations (signature func)).*2 s →
  ("return", r) ∈ getfullargspec_annotations (signature func) ∧
  ∃ kwargs' s' v,
    inject_kwargs (getfullargspec_annotations (signature func)) kwargs s
      = Return kwargs' s' ∧
    kwargs' !! "return" = Some v ∧
    get r s' = Return v s' ∧
    (∀ bound,
       bind_arguments (signature func) args kwargs' = inr bound →
       inject func args kwargs s = lift_world (body func bound) s' ∧
       extra bound !! "return" = Some v ∧
       varkw (signature func) = true) ∧
    (∀ e,
       bind_arguments (signature func) args kwargs' = inl e →
       inject func args kwargs s = Raise e s') ∧
    (varkw (signature func) = false →
     ∃ msg, bind_arguments (signature func) args kwargs' = inl (TypeError msg)) ∧
    (varkw (signature func) = true →
     args = [] →
     Forall (fun q => is_Some (kwargs !! name q) ∨ is_Some (default q) ∨
                      ∃ b, annotation q = Some b ∧ is_Some (bindings s !! b))
            (parameters (signature func)) →
     ∃ bound, bind_arguments (signature func) args kwargs' = inr bound).
Proof.
  intros Hnd Hr Hb Hk Hret.
  assert (("return", r) ∈ getfullargspec_annotations (signature func)) as Hitem.
  { rewrite getfullargspec_annotations_unfold by done.
    apply elem_of_app. left. unfold return_item. rewrite Hr. set_solver. }
  split; [done|].
  destruct (inject_kwargs_returns _ kwargs s (annotations_NoDup _ Hnd) Hret)
    as (kw & s' & Hloop & Hres & Hpass & _ & Hin).
  destruct (Hin "return" r Hitem Hb Hk) as (v & Hv & Hi).
  pose proof Hnd as [Hnot _]%NoDup_cons.
  exists kw, s', v. split_and!; [done..|by apply get_cached| | | |].
  - intros bound Hbind.
    destruct (bind_arguments_extra _ _ _ _ "return" Hbind Hnot) as [Hextra Hvar].
    split_and!.
    + rewrite inject_unfold, Hloop. unfold lift_world, apply. by rewrite Hbind.
    + by rewrite Hextra.
    + apply Hvar. by eexists.
  - intros e Hbind. rewrite inject_unfold, Hloop. unfold lift_world, apply.
    rewrite Hbind. cbn. by destruct s'.
  - intros Hvar. destruct (bind_arguments (signature func) args kw) as [e|bound] eqn:Hbind.
    + revert Hbind. unfold bind_arguments.
      repeat (case_bool_decide || destruct (negb _ && _)); intros [= <-]; by eexists.
    + destruct (bind_arguments_extra _ _ _ _ "return" Hbind Hnot) as [_ Hvar'].
      rewrite Hvar' in Hvar by (by eexists). done.
  - intros Hvar -> Hall.
    eapply (injected_keywords_bind _ kwargs kw s s'); [done..| |by left|done].
    intros n b Hnb Hbound Hkn. destruct (Hin n b Hnb Hbound Hkn) as (u & -> & _).
    by eexists.
Qed.

(** A value passed positionally for a first parameter that is annotated
    with a bound key, in a call whose keywords all name parameters: the
    wrapper injects the keyword all the same, and the call of [func]
    raises. *)
Lemma inject_positional_raises (func : Function) (v : Value) (args : list Value)
    (kwargs : gmap string Value) (s : State) (param : Param) (rest : list Param)
    (a : Interface) :
  NoDup ("return" :: (name <$> parameters (signature func))) →
  parameters (signature func) = param :: rest →
  annotation param = Some a →
  is_Some (bindings s !! a) →
  kwargs !! name param = None →
  (∀ n, is_Some (kwargs !! n) → n ∈ name <$> parameters (signature func)) →
  factories_return (getfullargspec_annotations (signature func)).*2 s →
  ∃ s', inject func (v :: args) kwargs s
          = Raise (TypeError "got multiple values for argument") s'.
Proof.
  intros Hnd Hparams Ha Hb Hk _ Hret.
  destruct (inject_kwargs_returns _ kwargs s (annotations_NoDup _ Hnd) Hret)
    as (kw & s' & Hloop & Hres & Hpass & _ & Hin).
  destruct (Hin (name param) a) as (u & Hu & _); [|done..|].
  { rewrite getfullargspec_annotations_unfold by done.
    apply elem_of_app. right. apply annotated_elem; [|done].
    rewrite Hparams. set_solver. }
  rewrite inject_unfold, Hloop. unfold lift_world, apply.
  rewrite (bind_arguments_clash _ v args kw param rest Hparams) by (by eexists).
  by eexists.
Qed.
End InjectTheory.

Section InjectExamples.
Local Existing Instance counting.
Local Open Scope positive_scope.

Lemma bound_service_returns (ks : list Interface) : factories_return ks bound_service.
Proof.
  intros k f _ Hf w. cbn in Hf.
  apply lookup_insert_Some in Hf as [[_ <-]|[_ Hf]]; [|by rewrite lookup_empty in Hf].
  by eexists _, _.
Qed.



Lemma inject_return_annotation_witness :
  ∃ s' bound v,
    Di.inject make [] ∅ bound_service = Di.lift_world (Di.body make bound) s' ∧
    Di.extra bound !! "return" = Some v ∧
    Di.get 1 s' = Return v s'.
Proof.
  destruct (inject_return_annotation (H := counting) make [] ∅ bound_service 1
              ltac:(compute_done) eq_refl ltac:(by eexists) eq_refl
              (bound_service_returns _))
    as (_ & kw & s' & v & _ & _ & Hget & Hbody & _ & _ & Hbinds).
  destruct (Hbinds eq_refl eq_refl ltac:(constructor)) as [bound Hbind].
  destruct (Hbody bound Hbind) as (Hrun & Hextra & _).
  exists s', bound, v. split_and!; [exact Hrun|exact Hextra|exact Hget].
Defined.

(** What the wrapper does on these callables. *)
Example inject_handler_runs :
  returned (Di.inject handler [] ∅ bound_service) = Some (VObj 3) ∧
  returned (Di.inject handler [] {["service" := VInt 5]} bound_service) = Some (VInt 5) ∧
  returned (Di.inject make [] ∅ bound_service) = Some (VDict [("return", VObj 3)]) ∧
  Di.inject make_strict [] ∅ bound_service
    = Raise (TypeError "got an unexpected keyword argument")
            (state_of (Di.get 1 bound_service)).
Proof. split_and!; vm_compute; reflexivity. Qed.

(** C5, at the input where the code departs from it.  [handler] takes one
    parameter, annotated with a bound key.  Called directly with the value
    5 in that position it returns 5.  Called through the wrapper with the
    same positional argument, the wrapper still resolves the key and adds
    the keyword, and the call raises [TypeError]: the caller's positional
    value is not used. *)
Theorem inject_positional_example :
  Di.lift_world (Di.apply handler [VInt 5] ∅) bound_service
    = Return (VInt 5) bound_service ∧
  Di.inject handler [VInt 5] ∅ bound_service
    = Raise (TypeError "got multiple values for argument")
            (state_of (Di.get 1 bound_service)).
Proof. split; vm_compute; reflexivity. Qed.
End InjectExamples.

(** ** The domain mixins: equality and hash of value objects *)

Section StringOrder.

Import Stdlib.Strings.Ascii.

Lemma string_compare_refl (s : string) : String.compare s s = Eq.
Proof.
  induction s as [|c s IH]; [done|]. cbn.
  unfold Ascii.compare. by rewrite N.compare_refl.
Qed.

Lemma string_compare_lt_trans (s1 s2 s3 : string) :
  String.compare s1 s2 = Lt → String.compare s2 s3 = Lt → String.compare s1 s3 = Lt.
Proof.
  revert s2 s3. induction s1 as [|c1 s1 IH]; intros [|c2 s2] [|c3 s3]; cbn; try done.
  unfold Ascii.compare.
  destruct (N.compare_spec (N_of_ascii c1) (N_of_ascii c2)) as [E12|L12|G12];
    destruct (N.compare_spec (N_of_ascii c2) (N_of_ascii c3)) as [E23|L23|G23];
    try done; intros H12 H23.
  - rewrite E12, E23, N.compare_refl. by eapply IH.
  - rewrite E12. by apply N.compare_lt_iff in L23 as ->.
  - rewrite <- E23. by apply N.compare_lt_iff in L12 as ->.
  - assert (N_of_ascii c1 < N_of_ascii c3)%N as L13 by lia.
    by apply N.compare_lt_iff in L13 as ->.
Qed.

Lemma str_le_alt (a b : string) :
  str_le a b ↔ a = b ∨ String.compare a b = Lt.
Proof.
  unfold str_le, String.leb. split.
  - destruct (String.compare a b) eqn:Hc; [|by right|done].
    left. by apply String.compare_eq_iff.
  - intros [-> | ->]; [|done]. by rewrite string_compare_refl.
Qed.

#[local] Instance str_le_trans : Transitive str_le.
Proof.
  intros a b c Hab Hbc. apply str_le_alt in Hab, Hbc. apply str_le_alt.
  destruct Hab as [-> | Hab]; [done|]. destruct Hbc as [<- | Hbc]; [by right|].
  right. by eapply string_compare_lt_trans.
Qed.

#[local] Instance str_le_antisym : AntiSymm (=) str_le.
Proof. intros a b. apply String.leb_antisym. Qed.

Lemma str_le_total (a b : string) : String.leb a b = false → str_le b a.
Proof.
  intros Hab. destruct (String.leb_total a b) as [H|H]; [congruence|done].
Qed.

Import Domain.

Lemma insort_Permutation (x : string * Value) (l : list (string * Value)) :
  insort x l ≡ₚ x :: l.
Proof.
  induction l as [|y l IH]; [done|]. cbn.
  destruct (String.leb x.1 y.1); [done|]. rewrite IH. apply Permutation_swap.
Qed.

Lemma sorted_Permutation (l : list (string * Value)) : sorted l ≡ₚ l.
Proof.
  induction l as [|x l IH]; [done|].
  cbn. rewrite insort_Permutation. by rewrite IH.
Qed.

Lemma insort_Sorted (x : string * Value) (l : list (string * Value)) :
  Sorted str_le l.*1 → Sorted str_le (insort x l).*1.
Proof.
  induction l as [|y l IH]; intros Hs; cbn.
  - by repeat constructor.
  - destruct (String.leb x.1 y.1) eqn:Hxy; cbn.
    + constructor; [done|]. by constructor.
    + cbn in Hs. apply Sorted_inv in Hs as [Hs Hhd].
      constructor; [by apply IH|].
      destruct l as [|z l]; cbn in *.
      * constructor. by apply str_le_total.
      * destruct (String.leb x.1 z.1); cbn; constructor.
        -- by apply str_le_total.
        -- by apply HdRel_inv in Hhd.
Qed.

Lemma sorted_Sorted (l : list (string * Value)) : Sorted str_le (sorted l).*1.
Proof.
  induction l as [|x l IH]; [constructor|]. cbn. by apply insort_Sorted.
Qed.

(** Two dicts with the same keys list their sorted items in the same order
    of keys. *)
Lemma sorted_keys (d1 d2 : list (string * Value)) :
  d1.*1 ≡ₚ d2.*1 → (sorted d1).*1 = (sorted d2).*1.
Proof.
  intros Hp. apply (Sorted_unique str_le); [apply sorted_Sorted..|].
  by rewrite !sorted_Permutation.
Qed.
End StringOrder.

(** Induction on values that reaches the elements of containers. *)
Lemma Value_nested_ind (P : Value → Prop) :
  P VNone →
  (∀ z, P (VInt z)) →
  (∀ s, P (VStr s)) →
  (∀ o, P (VObj o)) →
  (∀ vs, Forall P vs → P (VTuple vs)) →
  (∀ vs, Forall P vs → P (VList vs)) →
  (∀ items, Forall (fun kv => P kv.2) items → P (VDict items)) →
  ∀ v, P v.
Proof.
  intros HNone HInt HStr HObj HTuple HList HDict. fix IH 1.
  intros [|z|s|o|vs|vs|items]; [done..| | |].
  - apply HTuple. induction vs as [|x xs IHxs]; constructor; [apply IH|apply IHxs].
  - apply HList. induction vs as [|x xs IHxs]; constructor; [apply IH|apply IHxs].
  - apply HDict. induction items as [|[k x] xs IHxs]; constructor; [apply IH|apply IHxs].
Qed.

Section ValueObjectTheory.
Context `{Domain.Hashing}.

Import Domain.

Lemma getitem_elem {A} (k : string) (v : A) (d : list (string * A)) :
  getitem k d = Some v → (k, v) ∈ d.
Proof.
  induction d as [|[k' v'] d IH]; [done|]. cbn.
  case_bool_decide as Hk; [intros [= ->]; subst; left|intros Hd; right; auto].
Qed.

Lemma elem_getitem {A} (k : string) (v : A) (d : list (string * A)) :
  NoDup d.*1 → (k, v) ∈ d → getitem k d = Some v.
Proof.
  induction d as [|[k' v'] d IH]; intros Hnd Hin; [by apply elem_of_nil in Hin|].
  cbn in Hnd. apply NoDup_cons in Hnd as [Hk' Hnd]. cbn.
  apply elem_of_cons in Hin as [[= <- <-]|Hin].
  - by rewrite bool_decide_true.
  - rewrite bool_decide_false; [by apply IH|].
    intros ->. apply Hk'. apply list_elem_of_fmap. by exists (k, v).
Qed.

Lemma items_in_elem {A} (elem_eq : A → A → bool) (xs d : list (string * A)) k v :
  items_in elem_eq xs d = true → (k, v) ∈ xs →
  ∃ v', getitem k d = Some v' ∧ elem_eq v v' = true.
Proof.
  induction xs as [|[k0 v0] xs IH]; intros Hall Hin; [by apply elem_of_nil in Hin|].
  cbn in Hall. destruct (getitem k0 d) as [v'|] eqn:Hg; [|done].
  apply andb_true_iff in Hall as [Hv Hall].
  apply elem_of_cons in Hin as [[= -> ->]|Hin]; [by exists v'|by apply IH].
Qed.

(** Two dicts that compare equal have the same keys. *)
Lemma dict_eq_keys (d1 d2 : list (string * Value)) :
  NoDup d1.*1 → NoDup d2.*1 →
  py_eq (VDict d1) (VDict d2) = true → d1.*1 ≡ₚ d2.*1.
Proof.
  intros Hnd1 Hnd2 Heq. cbn in Heq.
  apply andb_true_iff in Heq as [Hlen Hall]. apply bool_decide_eq_true in Hlen.
  apply submseteq_length_Permutation.
  - apply NoDup_submseteq; [done|]. intros k Hk.
    apply list_elem_of_fmap in Hk as ([k' v] & -> & Hkv).
    destruct (items_in_elem _ _ _ _ _ Hall Hkv) as (v' & Hg & _).
    apply getitem_elem in Hg. apply list_elem_of_fmap. by exists (k', v').
  - by rewrite !length_fmap, Hlen.
Qed.

(** Values that compare equal have the same hash, or are unhashable for
    the same reason. *)
Lemma py_eq_hash (a b : Value) : py_eq a b = true → py_hash a = py_hash b.
Proof.
  revert b. induction a as [|z|s|o|vs IH|vs IH|items IH] using Value_nested_ind;
    intros [] Heq; cbn in Heq; try done;
    try (apply bool_decide_eq_true in Heq as ->; done).
  cbn. enough (hashes py_hash vs = hashes py_hash vs0) as -> by done.
  revert vs0 Heq. induction IH as [|x xs Hx _ IHxs]; intros [|y ys] Heq; cbn in Heq;
    try done.
  apply andb_true_iff in Heq as [Hxy Hrest]. cbn.
  by rewrite (Hx y Hxy), (IHxs ys Hrest).
Qed.

Lemma hashes_items (l1 l2 : list (string * Value)) :
  Forall2 (fun x y => x.1 = y.1 ∧ py_eq x.2 y.2 = true) l1 l2 →
  hashes py_hash (item <$> l1) = hashes py_hash (item <$> l2).
Proof.
  induction 1 as [|[k1 v1] [k2 v2] l1 l2 [Hk Hv] _ IH]; [done|].
  cbn in Hk, Hv. subst k2. cbn. by rewrite (py_eq_hash _ _ Hv), IH.
Qed.

(** The sorted items of two dicts that compare equal agree key by key and
    compare equal value by value. *)
Lemma sorted_items_eq (d1 d2 : list (string * Value)) :
  NoDup d1.*1 → NoDup d2.*1 →
  py_eq (VDict d1) (VDict d2) = true →
  Forall2 (fun x y => x.1 = y.1 ∧ py_eq x.2 y.2 = true) (sorted d1) (sorted d2).
Proof.
  intros Hnd1 Hnd2 Heq.
  pose proof (sorted_keys d1 d2 (dict_eq_keys d1 d2 Hnd1 Hnd2 Heq)) as Hkeys.
  cbn in Heq. apply andb_true_iff in Heq as [_ Hall].
  apply Forall2_same_length_lookup_2.
  - apply (f_equal length) in Hkeys. by rewrite !length_fmap in Hkeys.
  - intros i [k1 v1] [k2 v2] H1 H2. cbn.
    assert (k1 = k2) as <-.
    { apply (f_equal (.!! i)) in Hkeys. rewrite !list_lookup_fmap, H1, H2 in Hkeys.
      by injection Hkeys. }
    split; [done|].
    apply list_elem_of_lookup_2 in H1, H2.
    rewrite sorted_Permutation in H1, H2.
    destruct (items_in_elem _ _ _ _ _ Hall H1) as (v' & Hg & Hv).
    rewrite (elem_getitem _ _ _ Hnd2 H2) in Hg. by injection Hg as <-.
Qed.

Lemma dict_keys (m : Model) : (dict m).*1 = (fields_of m).*1.
Proof.
  destruct m as [cls bases fields]. cbn.
  induction fields as [|[k [v|m]] fields IH]; cbn; [done|by rewrite IH..].
Qed.

(** X14. Value objects that compare equal with [__eq__] get the same result
    from [__hash__]: the same hash, or the same [TypeError] when a
    serialized field is unhashable. *)
Lemma value_object_eq_hash (a b : Model) :
  NoDup (fields_of a).*1 → NoDup (fields_of b).*1 →
  __eq__ a (Nested b) = true → __hash__ a = __hash__ b.
Proof.
  intros Ha Hb Heq. unfold __eq__ in Heq.
  apply andb_true_iff in Heq as [_ Heq].
  unfold __hash__. cbn [py_hash].
  rewrite <- dict_keys in Ha, Hb.
  by rewrite (hashes_items _ _ (sorted_items_eq _ _ Ha Hb Heq)).
Qed.

(** *** Instances with identical field values are equal *)

Lemma Model_nested_ind (P : Model → Prop) :
  (∀ cls bases fields,
     Forall (fun kf => match kf.2 with Plain _ => True | Nested m => P m end) fields →
     P (Instance cls bases fields)) →
  ∀ m, P m.
Proof.
  intros Hstep. fix IH 1. intros [cls bases fields]. apply Hstep.
  induction fields as [|[k [v|m]] fields IHf]; constructor; cbn; auto.
Qed.

Lemma items_in_intro {A} (elem_eq : A → A → bool) (xs d : list (string * A)) :
  (∀ k v, (k, v) ∈ xs → ∃ v', getitem k d = Some v' ∧ elem_eq v v' = true) →
  items_in elem_eq xs d = true.
Proof.
  induction xs as [|[k v] xs IH]; intros Hall; [done|]. cbn.
  destruct (Hall k v) as (v' & -> & ->); [left|]. cbn.
  apply IH. intros k' u Hin. apply Hall. by right.
Qed.

Lemma py_eq_refl (v : Value) : wf_value v = true → py_eq v v = true.
Proof.
  induction v as [|z|s|o|vs IH|vs IH|items IH] using Value_nested_ind;
    intros Hwf; cbn in *; try done; try by apply bool_decide_eq_true.
  - induction IH as [|x xs Hx _ IHxs]; [done|]. cbn in *.
    apply andb_true_iff in Hwf as [Hwx Hwxs]. by rewrite Hx, IHxs.
  - induction IH as [|x xs Hx _ IHxs]; [done|]. cbn in *.
    apply andb_true_iff in Hwf as [Hwx Hwxs]. by rewrite Hx, IHxs.
  - apply andb_true_iff in Hwf as [Hnd Hwf]. apply bool_decide_eq_true in Hnd.
    rewrite bool_decide_true by done. cbn.
    apply items_in_intro. intros k v Hin. exists v.
    split; [by apply elem_getitem|].
    rewrite Forall_forall in IH. apply (IH (k, v) Hin).
    rewrite forallb_forall in Hwf. apply (Hwf (k, v)). by apply list_elem_of_In.
Qed.

Lemma dict_wf (m : Model) : wf_model m = true → wf_value (VDict (dict m)) = true.
Proof.
  induction m as [cls bases fields IH] using Model_nested_ind. intros Hwf.
  pose proof (dict_keys (Instance cls bases fields)) as Hkeys.
  cbn [wf_model] in Hwf. apply andb_true_iff in Hwf as [Hnd Hwf].
  apply bool_decide_eq_true in Hnd.
  cbn [wf_value]. apply andb_true_iff. split.
  - apply bool_decide_eq_true. by rewrite Hkeys.
  - clear Hkeys Hnd. cbn [dict].
    induction IH as [|[k [v|m]] fields Hf _ IHf]; [done|..]; cbn in *;
      apply andb_true_iff in Hwf as [Hw Hwf]; apply andb_true_iff; split; auto.
Qed.

(** A well-formed instance equals every instance of its class with the
    same fields, itself and its clones included. *)
Lemma value_object_eq_refl (cls : ClassId) (bases bases' : list ClassId)
    (fields : list (string * Field)) :
  wf_model (Instance cls bases fields) = true →
  __eq__ (Instance cls bases fields) (Nested (clone (Instance cls bases' fields))) = true.
Proof.
  intros Hwf. unfold __eq__, clone. cbn [isinstance class_of].
  rewrite bool_decide_true by done. cbn [orb andb].
  assert (dict (Instance cls bases' fields) = dict (Instance cls bases fields)) as ->
    by done.
  apply py_eq_refl. by apply dict_wf.
Qed.
End ValueObjectTheory.

(** ** The claims about the domain mixins *)

Section PrimitiveClaims.
Context `{Domain.SchemaEngine}.

Import Domain.

(** C9. [is_valid(value)] is [true] exactly when [parse(value)] returns, and
    then [parse] returns [value] itself; it is [false] exactly when [parse]
    raises, and what [parse] raises is the validation error that carries
    the violations the engine reports.  [is_valid] is the [is_ok] of
    [monadic_parse], which holds what [parse] returns or raises. *)
Theorem is_valid_consistent (cls : ClassId) (value : Value) :
  (Primitive.is_valid cls value = true ↔ Primitive.parse cls value = inr value) ∧
  (Primitive.is_valid cls value = false ↔
   validate cls value ≠ [] ∧
   Primitive.parse cls value = inl (ValidationError (validate cls value))) ∧
  (∀ v, Primitive.parse cls value = inr v → v = value) ∧
  Primitive.monadic_parse cls value =
    match Primitive.parse cls value with
    | inr v => Ok v
    | inl e => Err e
    end.
Proof.
  unfold Primitive.is_valid, Primitive.monadic_parse, monadic, Primitive.parse.
  destruct (validate cls value) as [|e errors]; cbn.
  - split_and!; [done| |by intros v [= <-]|done]. split; [done|]. by intros [? _].
  - split_and!; [done| |done..]. split; [done|]. by intros [_ ?].
Qed.
End PrimitiveClaims.

Section ValueObjectClaims.
Context `{Domain.Hashing}.

Import Domain.

(** C8, at the input where the code departs from it.  Two [Price]
    instances with identical field values, one of them a clone, are equal,
    but neither has a hash: [dict()] turns the nested [Amount] into a dict,
    and the tuple of sorted items that [__hash__] hashes then holds an
    unhashable value, so [__hash__] raises [TypeError].  An [Amount], whose
    only field is an integer, is hashed from its sorted items. *)
Theorem nested_value_object_unhashable :
  let a := Price (Amount 1) "EUR" in
  let b := clone (Price (Amount (2 - 1)) "EUR") in
  __eq__ a (Nested b) = true ∧
  dict a = [("currency", VStr "EUR"); ("amount", VDict [("value", VInt 1)])] ∧
  sorted (dict a) = [("amount", VDict [("value", VInt 1)]); ("currency", VStr "EUR")] ∧
  __hash__ a = inl (TypeError "unhashable type: 'dict'") ∧
  __hash__ b = inl (TypeError "unhashable type: 'dict'") ∧
  __hash__ (Amount 1) = inr (hash_tuple [hash_tuple [hash_str "value"; hash_int 1]]).
Proof. cbn. split_and!; reflexivity. Qed.
End ValueObjectClaims.

(** ** More about the registries *)

Section MoreRegistry.
Context `{Runtime}.

Import Di.
Local Abbreviation instances s := (ProviderRegistry.__instances__ (registry s)).
Local Abbreviation bindings s := (ProviderRegistry.__bindings__ (registry s)).

(** X1. In every state that a program reaches from a fresh registry, a key
    that has a cached instance has a binding, and [get] of that key returns
    the cached instance and changes nothing. *)
Theorem cached_keys_are_bound (ops : list Op) (w0 : World) (k : Interface) (v : Value) :
  instances (run ops (init w0)) !! k = Some v →
  is_Some (bindings (run ops (init w0)) !! k) ∧
  get k (run ops (init w0)) = Return v (run ops (init w0)).
Proof.
  intros Hk. split; [|by apply get_cached].
  apply (run_cache_bound ops (init w0) (init_cache_bound w0)). by eexists.
Qed.

(** For factories that leave the registry alone, as [call] has them: a
    [get] that raises leaves the registry exactly as it was, and a [get]
    that returns leaves the binding table as it was and changes the cache
    at the resolved key only, where it puts the value it returns.  (A
    factory that itself resolves or binds keys, such as a class made
    injectable, changes the registry on its own account.) *)
Theorem get_effect_on_registry (k : Interface) (s : State) :
  (∀ e s', get k s = Raise e s' → registry s' = registry s) ∧
  (∀ v s', get k s = Return v s' →
     bindings s' = bindings s ∧ instances s' = <[k := v]> (instances s)).
Proof.
  destruct (instances s !! k) as [u|] eqn:Hk.
  - rewrite (get_cached _ _ _ Hk). split; [done|].
    intros v s' [= <- <-]. split; [done|]. by rewrite insert_id.
  - rewrite (get_uncached _ _ Hk).
    destruct (bindings s !! k) as [impl|]; [|split; [by intros e s' [= _ <-]|done]].
    destruct (invoke impl (world s)) as [u w|e w]; split; try done.
    + by intros v s' [= <- <-].
    + by intros e' s' [= _ <-].
Qed.

(** X3. In both registries, binding a key again discards the previous
    binding of that key, and bindings of two different keys can be made in
    either order. *)
Theorem bind_overwrites_and_commutes (k1 k2 : Interface) (f1 f2 g : Provider) :
  (∀ s, bind k1 f1 (bind k1 g s) = bind k1 f1 s) ∧
  (∀ s, k1 ≠ k2 → bind k1 f1 (bind k2 f2 s) = bind k2 f2 (bind k1 f1 s)) ∧
  (∀ self, Registry.ProviderRegistry.bind k1 f1 (Registry.ProviderRegistry.bind k1 g self)
           = Registry.ProviderRegistry.bind k1 f1 self) ∧
  (∀ self, k1 ≠ k2 →
     Registry.ProviderRegistry.bind k1 f1 (Registry.ProviderRegistry.bind k2 f2 self)
     = Registry.ProviderRegistry.bind k2 f2 (Registry.ProviderRegistry.bind k1 f1 self)).
Proof.
  unfold bind, ProviderRegistry.__setitem__, ProviderRegistry.bind,
    Registry.ProviderRegistry.bind.
  split_and!.
  - intros s. cbn. by rewrite insert_insert_eq.
  - intros s Hne. cbn. by rewrite insert_insert_ne.
  - intros self. cbn. by rewrite insert_insert_eq.
  - intros self Hne. cbn. by rewrite insert_insert_ne.
Qed.

(** X4. Calls of [bind_all] compose: one call after another is one call
    with the arguments of both, in order, and a call without arguments does
    nothing.  Decorating two modules one after the other binds the
    providers of the first and then those of the second, whatever the
    modules import. *)
Theorem bind_all_composes (ps qs : list ProviderArg) (s : State) :
  bind_all [] s = s ∧
  bind_all qs (bind_all ps s) = bind_all (ps ++ qs)%list s ∧
  (∀ imports1 imports2,
     module imports2 qs (module imports1 ps s) = bind_all (ps ++ qs)%list s).
Proof.
  split_and!; [done|by rewrite bind_all_app|].
  intros ? ?. unfold module. by rewrite bind_all_app.
Qed.

Lemma keys_of_Permutation (ps qs : list ProviderArg) :
  ps ≡ₚ qs → keys_of ps ≡ₚ keys_of qs.
Proof. intros Hp. unfold keys_of. by rewrite Hp. Qed.

(** X5. When its arguments name pairwise different keys, [bind_all] does
    not depend on the order of its arguments. *)
Theorem bind_all_any_order (ps qs : list ProviderArg) (s : State) :
  NoDup (keys_of ps) → ps ≡ₚ qs → bind_all ps s = bind_all qs s.
Proof.
  intros Hnd Hp. revert s Hnd.
  induction Hp as [|p ps qs _ IH|p q ps|ps qs rs Hpq IH1 Hqr IH2]; intros s Hnd.
  - done.
  - rewrite !bind_all_cons. apply IH. cbn in Hnd. by apply NoDup_cons in Hnd as [_ ?].
  - rewrite !bind_all_cons. f_equal.
    cbn in Hnd. apply NoDup_cons in Hnd as [Hq _].
    apply not_elem_of_cons in Hq as [Hne _].
    unfold bind, ProviderRegistry.__setitem__, ProviderRegistry.bind. cbn.
    by rewrite insert_insert_ne.
  - rewrite IH1 by done. apply IH2.
    by rewrite <- (keys_of_Permutation _ _ Hpq).
Qed.

(** X6. On a key that has no cached instance, the two registries agree:
    with the same binding table and from the same world, [get] of
    [di/registry.py] returns or raises exactly what [get] of [di.py] does,
    and leaves the same world. *)
Theorem first_resolution_agrees (k : Interface) (s : State)
    (self : Registry.ProviderRegistry.t) :
  instances s !! k = None →
  Registry.ProviderRegistry.bindings self = ProviderRegistry.bindings (registry s) →
  Registry.ProviderRegistry.get k self (world s) =
    match get k s with
    | Return v s' => Return v (world s')
    | Raise e s' => Raise e (world s')
    end.
Proof.
  intros Hk Hb. rewrite (get_uncached _ _ Hk).
  unfold Registry.ProviderRegistry.get.
  unfold Registry.ProviderRegistry.bindings, ProviderRegistry.bindings in Hb.
  rewrite Hb. destruct (bindings s !! k) as [impl|]; [|done].
  by destruct (invoke impl (world s)).
Qed.

(** X7. The factory of [provide_many] stops at the first element that
    raises: the elements before it have been called in order, the exception
    is raised from the world that element leaves, and the elements after it
    are not called.  Over an empty list it returns the empty list and
    calls nothing. *)
Theorem provide_many_raises (interface : Interface) (before after : list Provider)
    (f : Provider) (w : World) (vs : list Value) (w1 : World) (e : Exn) (w2 : World) :
  calls_in_order before w vs w1 →
  invoke f w1 = Raise e w2 →
  invoke (provide_many interface (before ++ f :: after)%list).2 w = Raise e w2 ∧
  invoke (provide_many interface []).2 w = Return (VList []) w.
Proof.
  intros Hbefore Hf. split; [|done].
  cbn [provide_many snd]. rewrite invoke_many. unfold mbind.
  enough (comprehension (before ++ f :: after)%list w = Raise e w2) as -> by done.
  induction Hbefore as [|g impls w v w' vs w'' Hg _ IH]; cbn; unfold mbind.
  - by rewrite Hf.
  - by rewrite Hg, (IH Hf).
Qed.

(** X8. A list bound with [provide_many] is built once: after
    [bind_all(provide_many(I, impls))], for a key [I] without a cached
    instance, the first [get(I)] calls the elements of [impls] in order and
    returns the list of their results, and every later [get(I)] returns
    that same list and leaves the state, world included, as it was. *)
Theorem provided_list_is_cached (interface : Interface) (impls : list Provider)
    (s : State) (vs : list Value) (w' : World) :
  instances s !! interface = None →
  calls_in_order impls (world s) vs w' →
  ∃ s1,
    get interface (bind_all [Tuple (provide_many interface impls)] s)
      = Return (VList vs) s1 ∧
    world s1 = w' ∧
    ∀ ops, get interface (run ops s1) = Return (VList vs) (run ops s1).
Proof.
  intros Hk Hcalls. apply comprehension_calls in Hcalls.
  set (s0 := bind_all [Tuple (provide_many interface impls)] s).
  assert (get interface s0 =
            Return (VList vs)
              {| registry := ProviderRegistry.set_instance interface (VList vs) (registry s0);
                 world := w' |}) as Hget.
  { rewrite get_uncached by done. subst s0. cbn [bind_all foldl provide_many].
    cbn. rewrite lookup_insert_eq.
    rewrite invoke_many. unfold mbind. by rewrite Hcalls. }
  eexists. split_and!; [exact Hget|done|].
  intros ops. apply get_cached. apply run_instance_kept. cbn.
  by rewrite lookup_insert_eq.
Qed.
End MoreRegistry.

(** ** More about the [inject] decorator *)

Section MoreInject.
Context `{Runtime}.

Import Di.
Local Abbreviation instances s := (ProviderRegistry.__instances__ (registry s)).
Local Abbreviation bindings s := (ProviderRegistry.__bindings__ (registry s)).

Lemma get_returned_cached k s v s' :
  get k s = Return v s' → instances s' !! k = Some v.
Proof.
  intros Hget. destruct (get_effect_on_registry k s) as [_ Hret].
  destruct (Hret v s' Hget) as [_ ->]. by rewrite lookup_insert_eq.
Qed.


(** The loop of the wrapper, run again in a state with the same binding
    table whose cache holds what the first run left, returns the same
    keywords and changes nothing. *)
Lemma inject_kwargs_replays items kwargs s kwargs' s1 s2 :
  inject_kwargs items kwargs s = Return kwargs' s1 →
  bindings s2 = bindings s →
  (∀ k v, instances s1 !! k = Some v → instances s2 !! k = Some v) →
  inject_kwargs items kwargs s2 = Return kwargs' s2.
Proof.
  revert kwargs s. induction items as [|[n p] items IH]; intros kwargs s Hrun Hb Hi.
  - cbn in Hrun. by injection Hrun as <- _.
  - cbn [inject_kwargs] in Hrun |- *.
    unfold ProviderRegistry.bindings in *. rewrite Hb.
    destruct (bool_decide (p ∈ dom (bindings s)) && bool_decide (n ∉ dom kwargs)).
    + unfold mbind in Hrun |- *.
      destruct (get p s) as [v s'|] eqn:Hget; [|done].
      assert (instances s2 !! p = Some v) as Hp.
      { apply Hi. pose proof (inject_kwargs_resolved items (<[n:=v]> kwargs) s') as Hres.
        rewrite Hrun in Hres. eapply resolved_instance_kept; [exact Hres|].
        by eapply get_returned_cached. }
      rewrite (get_cached _ _ _ Hp). eapply IH; [exact Hrun| |done].
      pose proof (get_bindings p s) as Hgb. rewrite Hget in Hgb. cbn in Hgb. congruence.
    + by eapply IH.
Qed.


(** X10. Injection is repeatable: once the wrapper has resolved its
    keywords, any later call of the wrapped callable with the same caller
    keywords, in a state with the same binding table whose cache still
    holds those instances, passes exactly the same keywords to the callable
    and calls no factory. *)
Theorem inject_again_same_instances (func : Function) (args args' : list Value)
    (kwargs kwargs' : gmap string Value) (s s1 s2 : State) :
  inject_kwargs (getfullargspec_annotations (signature func)) kwargs s
    = Return kwargs' s1 →
  bindings s2 = bindings s →
  (∀ k v, instances s1 !! k = Some v → instances s2 !! k = Some v) →
  inject func args kwargs s = lift_world (apply func args kwargs') s1 ∧
  inject func args' kwargs s2 = lift_world (apply func args' kwargs') s2.
Proof.
  intros Hrun Hb Hi. rewrite !inject_unfold, Hrun.
  by rewrite (inject_kwargs_replays _ _ _ _ _ _ Hrun Hb Hi).
Qed.


(** X12. A wrapped callable without [**kwargs] whose return annotation is
    a bound key cannot be called without a keyword ["return"]: the wrapper
    adds that keyword, and the call raises [TypeError]. *)
Theorem inject_return_rejected (func : Function) (args : list Value)
    (kwargs : gmap string Value) (s : State) (r : Interface) :
  NoDup ("return" :: (name <$> parameters (signature func))) →
  return_annotation (signature func) = Some r →
  varkw (signature func) = false →
  is_Some (bindings s !! r) →
  kwargs !! "return" = None →
  factories_return (getfullargspec_annotations (signature func)).*2 s →
  ∃ msg s', inject func args kwargs s = Raise (TypeError msg) s'.
Proof.
  intros Hnd Hr Hvar Hb Hk Hret.
  destruct (inject_kwargs_returns _ kwargs s (annotations_NoDup _ Hnd) Hret)
    as (kw & s' & Hloop & Hres & Hpass & _ & Hin).
  destruct (Hin "return" r) as (u & Hu & _); [|done..|].
  { rewrite getfullargspec_annotations_unfold by done.
    apply elem_of_app. left. unfold return_item. rewrite Hr. set_solver. }
  rewrite inject_unfold, Hloop. unfold lift_world, apply, bind_arguments.
  case_bool_decide; [by eexists _, _|].
  rewrite Hvar. cbn [negb andb]. rewrite bool_decide_true; [by eexists _, _|].
  intros Hsub. apply NoDup_cons in Hnd as [Hnot _]. apply Hnot.
  assert ("return" ∈ dom kw) as Hdom by (apply elem_of_dom; by eexists).
  apply Hsub in Hdom. by apply elem_of_list_to_set in Hdom.
Qed.

(** The arguments of a method call bind when the only positional argument
    is [self] and the keywords are exactly the other parameters. *)
Lemma bind_arguments_method (sig : Signature) (deps : list Param) (self : Value)
    (kwargs : gmap string Value) :
  parameters sig = self_param :: deps →
  NoDup (name <$> parameters sig) →
  (∀ n, is_Some (kwargs !! n) → n ∈ name <$> deps) →
  (∀ d, d ∈ deps → is_Some (kwargs !! name d)) →
  ∃ bound,
    bind_arguments sig [self] kwargs = inr bound ∧
    arguments bound !! "self" = Some self ∧
    extra bound = ∅.
Proof.
  intros Hparams Hnd Hdom Hall. rewrite Hparams in Hnd. cbn in Hnd.
  apply NoDup_cons in Hnd as [Hself Hnd].
  assert (kwargs !! "self" = None) as Hks.
  { destruct (kwargs !! "self") eqn:Hk; [|done].
    exfalso. apply Hself, Hdom. by eexists. }
  unfold bind_arguments. rewrite Hparams. cbn [fmap list_fmap name self_param length take].
  rewrite bool_decide_false.
  2:{ intros Hex. apply Exists_cons in Hex as [Hin|Hex]; [|by apply Exists_nil in Hex].
      apply elem_of_dom in Hin. rewrite Hks in Hin. by destruct Hin. }
  rewrite (bool_decide_false (¬ _)).
  2:{ intros Hnot. apply Hnot. intros n Hn. apply elem_of_dom in Hn.
      apply elem_of_list_to_set. right. by apply Hdom. }
  rewrite andb_false_r.
  rewrite bool_decide_false by (cbn; lia).
  rewrite bool_decide_true.
  2:{ apply Forall_cons. split.
      - apply elem_of_dom. eexists. apply lookup_union_Some_l, lookup_union_Some_l.
        cbn. by rewrite lookup_insert_eq.
      - apply Forall_forall. intros n Hn.
        apply list_elem_of_fmap in Hn as (d & -> & Hd).
        destruct (Hall d Hd) as [v Hv].
        apply elem_of_dom. exists v. apply lookup_union_Some_l.
        rewrite lookup_union_r.
        + apply map_lookup_filter_Some. split; [done|]. cbn. right.
          apply list_elem_of_fmap. by exists d.
        + cbn. rewrite lookup_insert_ne; [done|].
          intros Heq. apply Hself. rewrite Heq. apply list_elem_of_fmap. by exists d. }
  eexists. split_and!; [done| |]; cbn.
  - apply lookup_union_Some_l, lookup_union_Some_l. by rewrite lookup_insert_eq.
  - apply map_empty_filter. intros n v Hn Hnot. apply Hnot. cbn. right.
    apply Hdom. by eexists.
Qed.

(** X13. Constructor injection.  Let [init] be the initializer of a class,
    with [self] first and every other parameter annotated with a bound key,
    and a return annotation, if any, that is not a key.  Called through the
    wrapper with the new object alone, as the construction of an instance
    without arguments does, the initializer runs with [self] bound to that
    object and every other parameter bound to the instance the registry
    resolves its annotation to; no keyword is left over. *)
Theorem constructor_injection (init : Function) (self : Value) (s : State)
    (deps : list Param) :
  parameters (signature init) = self_param :: deps →
  NoDup ("return" :: (name <$> parameters (signature init))) →
  Forall (fun d => ∃ a, annotation d = Some a ∧ is_Some (bindings s !! a)) deps →
  (∀ r, return_annotation (signature init) = Some r → bindings s !! r = None) →
  factories_return (getfullargspec_annotations (signature init)).*2 s →
  ∃ s' bound,
    inject init [self] ∅ s = lift_world (body init bound) s' ∧
    arguments bound !! "self" = Some self ∧
    extra bound = ∅ ∧
    Forall (fun d => ∃ a v, annotation d = Some a ∧
                            arguments bound !! name d = Some v ∧
                            get a s' = Return v s') deps.
Proof.
  intros Hparams Hnd Hdeps Hreturn Hret.
  pose proof Hnd as Hnd'. apply NoDup_cons in Hnd' as [_ Hnames].
  destruct (inject_kwargs_returns _ ∅ s (annotations_NoDup _ Hnd) Hret)
    as (kw & s' & Hloop & Hres & _ & _ & Hin).
  assert (annotated (parameters (signature init)) = annotated deps) as Hann
    by (by rewrite Hparams).
  assert (∀ d, d ∈ deps → ∃ a v, annotation d = Some a ∧ kw !! name d = Some v ∧
                                 get a s' = Return v s') as Hdep.
  { intros d Hd. rewrite Forall_forall in Hdeps.
    destruct (Hdeps d Hd) as (a & Ha & Hb).
    destruct (Hin (name d) a) as (v & Hv & Hi); [|done|done|].
    - rewrite getfullargspec_annotations_unfold, Hann by done.
      apply elem_of_app. right. by apply annotated_elem.
    - exists a, v. split_and!; [done..|]. by apply get_cached. }
  assert (∀ n, is_Some (kw !! n) → n ∈ name <$> deps) as Hdom.
  { intros n Hn.
    destruct (inject_kwargs_dom _ _ _ _ _ n Hloop Hn) as [Hk|(a & Hitem & Hb)].
    - rewrite lookup_empty in Hk. by destruct Hk.
    - rewrite getfullargspec_annotations_unfold, Hann in Hitem by done.
      apply elem_of_app in Hitem as [Hitem|Hitem].
      + unfold return_item in Hitem.
        destruct (return_annotation (signature init)) as [r|] eqn:Hr;
          [|by apply elem_of_nil in Hitem].
        apply list_elem_of_singleton in Hitem as [= -> ->].
        rewrite (Hreturn r eq_refl) in Hb. by destruct Hb.
      + apply annotated_names. apply list_elem_of_fmap. by exists (n, a). }
  destruct (bind_arguments_method (signature init) deps self kw Hparams Hnames Hdom)
    as (bound & Hbind & Hself & Hextra).
  { intros d Hd. destruct (Hdep d Hd) as (a & v & _ & Hv & _). by eexists. }
  exists s', bound. rewrite inject_unfold, Hloop. unfold apply. rewrite Hbind.
  split_and!; [done..|].
  apply Forall_forall. intros d Hd. destruct (Hdep d Hd) as (a & v & Ha & Hv & Hg).
  exists a, v. split_and!; [done| |done].
  eapply bind_arguments_keyword; [exact Hbind| |done].
  rewrite Hparams. cbn. right. apply list_elem_of_fmap. by exists d.
Qed.
End MoreInject.

(** ** More about value objects *)

Section MoreValueObject.
Context `{Domain.Hashing}.

Import Domain.

Lemma seq_eq_trans (xs ys zs : list Value) :
  Forall (fun x => ∀ y z, py_eq x y = true → py_eq y z = true → py_eq x z = true) xs →
  seq_eq py_eq xs ys = true → seq_eq py_eq ys zs = true → seq_eq py_eq xs zs = true.
Proof.
  intros IH. revert ys zs.
  induction IH as [|x xs Hx _ IHxs]; intros [|y ys] [|z zs]; cbn; try done.
  intros [Hxy Hrest]%andb_true_iff [Hyz Hrest']%andb_true_iff.
  by rewrite (Hx y z Hxy Hyz), (IHxs ys zs Hrest Hrest').
Qed.

Lemma py_eq_trans (a b c : Value) :
  py_eq a b = true → py_eq b c = true → py_eq a c = true.
Proof.
  revert b c. induction a as [|z|s|o|vs IH|vs IH|items IH] using Value_nested_ind;
    intros [] [] Hab Hbc; cbn in Hab, Hbc |- *; try done;
    try (apply bool_decide_eq_true in Hab, Hbc; apply bool_decide_eq_true; congruence).
  - by eapply seq_eq_trans.
  - by eapply seq_eq_trans.
  - apply andb_true_iff in Hab as [Hl1 Hab], Hbc as [Hl2 Hbc].
    apply bool_decide_eq_true in Hl1, Hl2.
    rewrite bool_decide_true by congruence. cbn.
    apply items_in_intro. intros k v Hin.
    destruct (items_in_elem _ _ _ _ _ Hab Hin) as (v' & Hg & Hv).
    apply getitem_elem in Hg.
    destruct (items_in_elem _ _ _ _ _ Hbc Hg) as (v'' & Hg' & Hv').
    exists v''. split; [done|].
    rewrite Forall_forall in IH. by apply (IH (k, v) Hin v' v'').
Qed.

Lemma seq_eq_sym (xs ys : list Value) :
  Forall (fun x => ∀ y, wf_value x = true → wf_value y = true →
                        py_eq x y = true → py_eq y x = true) xs →
  forallb wf_value xs = true → forallb wf_value ys = true →
  seq_eq py_eq xs ys = true → seq_eq py_eq ys xs = true.
Proof.
  intros IH. revert ys.
  induction IH as [|x xs Hx _ IHxs]; intros [|y ys]; cbn; try done.
  intros [Hwx Hwxs]%andb_true_iff [Hwy Hwys]%andb_true_iff [Hxy Hrest]%andb_true_iff.
  by rewrite (Hx y Hwx Hwy Hxy), (IHxs ys Hwxs Hwys Hrest).
Qed.

Lemma py_eq_sym (a b : Value) :
  wf_value a = true → wf_value b = true → py_eq a b = true → py_eq b a = true.
Proof.
  revert b. induction a as [|z|s|o|vs IH|vs IH|items IH] using Value_nested_ind;
    intros [] Hwa Hwb Hab; cbn in Hab |- *; try done;
    try (apply bool_decide_eq_true in Hab; apply bool_decide_eq_true; congruence).
  - by apply seq_eq_sym.
  - by apply seq_eq_sym.
  - rename items0 into others.
    pose proof Hab as Heq.
    cbn in Hwa, Hwb.
    apply andb_true_iff in Hwa as [Hnd1 Hw1], Hwb as [Hnd2 Hw2].
    apply bool_decide_eq_true in Hnd1, Hnd2.
    pose proof (dict_eq_keys items others Hnd1 Hnd2 Heq) as Hkeys.
    apply andb_true_iff in Hab as [Hlen Hab]. apply bool_decide_eq_true in Hlen.
    rewrite bool_decide_true by done. cbn.
    apply items_in_intro. intros k v' Hin.
    assert (k ∈ items.*1) as Hk.
    { rewrite Hkeys. apply list_elem_of_fmap. by exists (k, v'). }
    apply list_elem_of_fmap in Hk as ([k0 v] & -> & Hkv). cbn in *.
    destruct (items_in_elem _ _ _ _ _ Hab Hkv) as (v2 & Hg & Hv).
    rewrite (elem_getitem _ _ _ Hnd2 Hin) in Hg. injection Hg as <-.
    exists v. split; [by apply elem_getitem|].
    rewrite Forall_forall in IH. apply (IH (k0, v) Hkv v'); [| |done].
    + rewrite forallb_forall in Hw1. apply (Hw1 (k0, v)). by apply list_elem_of_In.
    + rewrite forallb_forall in Hw2. apply (Hw2 (k0, v')). by apply list_elem_of_In.
Qed.

(** X15. On well-formed instances of one class, [__eq__] is symmetric, and
    it is transitive: [a == b] and [b == c] give [a == c]. *)
Theorem value_object_eq_sym_trans (a b c : Model) :
  class_of a = class_of b →
  (wf_model a = true → wf_model b = true →
   __eq__ a (Nested b) = true → __eq__ b (Nested a) = true) ∧
  (__eq__ a (Nested b) = true → __eq__ b (Nested c) = true →
   __eq__ a (Nested c) = true).
Proof.
  intros Hcls. unfold __eq__. split.
  - intros Hwa Hwb [_ Heq]%andb_true_iff. apply andb_true_iff. split.
    + destruct a as [ca ba fa]. cbn in *. subst ca.
      by rewrite bool_decide_true.
    + apply py_eq_sym; [by apply dict_wf..|done].
  - intros [_ Hab]%andb_true_iff [Hic Hbc]%andb_true_iff. apply andb_true_iff. split.
    + by rewrite Hcls.
    + by eapply py_eq_trans.
Qed.

Lemma hashes_defined (vs : list Value) :
  Forall (fun v => (∃ h, py_hash v = inr h) ↔ hashable v = true) vs →
  (∃ hs, hashes py_hash vs = inr hs) ↔ forallb hashable vs = true.
Proof.
  induction 1 as [|v vs Hv _ IH]; cbn; [naive_solver|].
  rewrite andb_true_iff, <- Hv, <- IH.
  destruct (py_hash v) as [e|h]; [naive_solver|].
  destruct (hashes py_hash vs) as [e|hs]; naive_solver.
Qed.

(** [hash] returns exactly on the hashable values. *)
Lemma py_hash_defined (v : Value) : (∃ h, py_hash v = inr h) ↔ hashable v = true.
Proof.
  induction v as [|z|s|o|vs IH|vs IH|items IH] using Value_nested_ind; cbn;
    try naive_solver.
  rewrite <- (hashes_defined vs IH).
  destruct (hashes py_hash vs); naive_solver.
Qed.

Lemma hashes_TypeError (vs : list Value) (e : Exn) :
  Forall (fun v => ∀ e, py_hash v = inl e → ∃ msg, e = TypeError msg) vs →
  hashes py_hash vs = inl e → ∃ msg, e = TypeError msg.
Proof.
  induction 1 as [|v vs Hv _ IH]; cbn; [done|].
  destruct (py_hash v) as [e'|h]; [intros [= <-]; by apply Hv|].
  destruct (hashes py_hash vs) as [e'|hs]; [|done]. intros [= <-]. by apply IH.
Qed.

(** What [hash] raises is a [TypeError]. *)
Lemma py_hash_TypeError (v : Value) (e : Exn) :
  py_hash v = inl e → ∃ msg, e = TypeError msg.
Proof.
  revert e. induction v as [|z|s|o|vs IH|vs IH|items IH] using Value_nested_ind;
    intros e; cbn; try done; try (intros [= <-]; by eexists).
  destruct (hashes py_hash vs) as [e'|hs] eqn:Hh; [|done].
  intros [= <-]. by eapply hashes_TypeError.
Qed.

Lemma hashable_items (l : list (string * Value)) :
  hashable (VTuple (item <$> l)) = true ↔ Forall (fun kv => hashable kv.2 = true) l.
Proof.
  cbn. induction l as [|[k v] l IH]; cbn; [by split|].
  rewrite Forall_cons, <- IH. cbn. rewrite andb_true_r. apply andb_true_iff.
Qed.

Lemma dict_serialized (cls : ClassId) (bases : list ClassId)
    (fields : list (string * Field)) :
  dict (Instance cls bases fields) = serialized <$> fields.
Proof.
  cbn. induction fields as [|[k [v|m]] fields IH]; cbn; [done|by rewrite IH..].
Qed.

(** X16. [__hash__] returns a hash exactly when every serialized field
    value is hashable; otherwise it raises [TypeError].  A value object with
    a field that holds another value object never has a hash. *)
Theorem value_object_hash_defined (a : Model) :
  ((∃ h, __hash__ a = inr h) ↔ Forall (fun kv => hashable kv.2 = true) (dict a)) ∧
  (∀ e, __hash__ a = inl e → ∃ msg, e = TypeError msg) ∧
  (∀ k m, (k, Nested m) ∈ fields_of a → ∃ msg, __hash__ a = inl (TypeError msg)).
Proof.
  assert ((∃ h, __hash__ a = inr h) ↔ Forall (fun kv => hashable kv.2 = true) (dict a))
    as Hiff.
  { unfold __hash__. rewrite py_hash_defined, hashable_items.
    by rewrite sorted_Permutation. }
  split_and!; [done|intros e; apply py_hash_TypeError|].
  intros k m Hin.
  destruct (__hash__ a) as [e|h] eqn:Hh.
  - destruct (py_hash_TypeError _ _ Hh) as [msg ->]. by exists msg.
  - exfalso. destruct Hiff as [Hiff _].
    specialize (Hiff ltac:(by eexists)). rewrite Forall_forall in Hiff.
    destruct a as [cls bases fields]. cbn [fields_of] in Hin.
    rewrite dict_serialized in Hiff.
    specialize (Hiff (serialized (k, Nested m))
                  ltac:(apply list_elem_of_fmap; by eexists)).
    done.
Qed.

(** X17. Neither [__eq__] nor [__hash__] depends on the order in which the
    fields are listed: two well-formed instances of a class with the same
    fields in any order are equal, and [__hash__] gives the same result on
    both. *)
Theorem value_object_field_order (cls : ClassId) (bases bases' : list ClassId)
    (fields fields' : list (string * Field)) :
  wf_model (Instance cls bases fields) = true →
  fields' ≡ₚ fields →
  __eq__ (Instance cls bases fields) (Nested (Instance cls bases' fields')) = true ∧
  __hash__ (Instance cls bases fields) = __hash__ (Instance cls bases' fields').
Proof.
  intros Hwf Hp.
  pose proof (dict_wf _ Hwf) as Hwd. cbn [wf_value] in Hwd.
  apply andb_true_iff in Hwd as [Hnd Hwv]. apply bool_decide_eq_true in Hnd.
  assert (dict (Instance cls bases' fields') ≡ₚ dict (Instance cls bases fields)) as Hpd
    by (by rewrite !dict_serialized, Hp).
  assert (NoDup (dict (Instance cls bases' fields')).*1) as Hnd' by (by rewrite Hpd).
  assert (__eq__ (Instance cls bases fields) (Nested (Instance cls bases' fields')) = true)
    as Heq.
  { unfold __eq__. cbn [isinstance class_of].
    rewrite bool_decide_true by done. cbn [orb andb py_eq].
    rewrite bool_decide_true by (by rewrite Hpd). cbn.
    apply items_in_intro. intros k v Hin. exists v. split.
    - apply elem_getitem; [done|]. by rewrite Hpd.
    - apply py_eq_refl. rewrite forallb_forall in Hwv.
      apply (Hwv (k, v)). by apply list_elem_of_In. }
  split; [done|].
  apply value_object_eq_hash; [| |done]; by rewrite <- dict_keys.
Qed.
End MoreValueObject.

(** ** The properties above on concrete data *)

Section MoreExamples.
Local Existing Instance counting.
Local Open Scope positive_scope.

Lemma cached_keys_are_bound_witness :
  is_Some (Di.ProviderRegistry.__bindings__
             (Di.registry (run [OBind 1 (Ref 2); OGet 1] (@init counting 0%nat))) !! 1) ∧
  Di.get 1 (run [OBind 1 (Ref 2); OGet 1] (@init counting 0%nat))
    = Return (VObj 3) (run [OBind 1 (Ref 2); OGet 1] (@init counting 0%nat)).
Proof.
  apply (cached_keys_are_bound (H := counting) [OBind 1 (Ref 2); OGet 1] 0%nat 1 (VObj 3)).
  reflexivity.
Defined.

Lemma bind_all_any_order_witness :
  Di.bind_all [Di.Bare 1; Di.Tuple (2, Ref 3)] start
    = Di.bind_all [Di.Tuple (2, Ref 3); Di.Bare 1] start.
Proof.
  apply (bind_all_any_order (H := counting)).
  - compute_done.
  - apply perm_swap.
Defined.

Lemma first_resolution_agrees_witness :
  Registry.ProviderRegistry.get 1
    {| Registry.ProviderRegistry.__bindings__ := {[ 1 := Ref 2 ]} |} (0%nat : World)
  = match Di.get 1 bound_service with
    | Return v s' => Return v (Di.world s')
    | Raise e s' => Raise e (Di.world s')
    end.
Proof.
  apply (first_resolution_agrees (H := counting) 1 bound_service
           {| Registry.ProviderRegistry.__bindings__ := {[ 1 := Ref 2 ]} |}).
  - reflexivity.
  - reflexivity.
Defined.

Lemma provide_many_raises_witness :
  invoke (Di.provide_many 9 ([Ref 1] ++ Ref 13 :: [Ref 2])%list).2 (0%nat : World)
    = Raise (Failure 1) 2%nat ∧
  invoke (Di.provide_many 9 []).2 (0%nat : World) = Return (VList []) 0%nat.
Proof.
  apply (provide_many_raises (H := counting) 9 [Ref 1] [Ref 2] (Ref 13)
           0%nat [VObj 2] 1%nat (Failure 1) 2%nat).
  - econstructor; [reflexivity|constructor].
  - reflexivity.
Defined.

Lemma provided_list_is_cached_witness :
  ∃ s1,
    Di.get 9 (Di.bind_all [Di.Tuple (Di.provide_many 9 [Ref 1; Ref 2])] start)
      = Return (VList [VObj 2; VObj 4]) s1 ∧
    Di.world s1 = 2%nat ∧
    ∀ ops, Di.get 9 (run ops s1) = Return (VList [VObj 2; VObj 4]) (run ops s1).
Proof.
  apply (provided_list_is_cached (H := counting) 9 [Ref 1; Ref 2] start).
  - reflexivity.
  - econstructor; [reflexivity|]. econstructor; [reflexivity|constructor].
Defined.


Lemma inject_again_same_instances_witness :
  Di.inject handler [] ∅ bound_service
    = Di.lift_world (Di.apply handler [] {[ "service" := VObj 3 ]})
        (state_of (Di.get 1 bound_service)) ∧
  Di.inject handler [] ∅ (state_of (Di.get 1 bound_service))
    = Di.lift_world (Di.apply handler [] {[ "service" := VObj 3 ]})
        (state_of (Di.get 1 bound_service)).
Proof.
  apply (inject_again_same_instances (H := counting) handler [] [] ∅
           {[ "service" := VObj 3 ]} bound_service).
  - reflexivity.
  - reflexivity.
  - intros k v Hk. exact Hk.
Defined.


Lemma inject_return_rejected_witness :
  ∃ msg s', Di.inject make_strict [] ∅ bound_service = Raise (TypeError msg) s'.
Proof.
  apply (inject_return_rejected (H := counting) make_strict [] ∅ bound_service 1).
  - compute_done.
  - reflexivity.
  - reflexivity.
  - by eexists.
  - reflexivity.
  - apply bound_service_returns.
Defined.

Lemma constructor_injection_witness :
  ∃ s' bound,
    Di.inject controller_init [VObj 100] ∅ bound_service
      = Di.lift_world (Di.body controller_init bound) s' ∧
    Di.arguments bound !! "self" = Some (VObj 100) ∧
    Di.extra bound = ∅ ∧
    Forall (fun d => ∃ a v, Di.annotation d = Some a ∧
                            Di.arguments bound !! Di.name d = Some v ∧
                            Di.get a s' = Return v s')
           [{| Di.name := "service"; Di.annotation := Some 1; Di.default := None |}].
Proof.
  apply (constructor_injection (H := counting) controller_init (VObj 100) bound_service).
  - reflexivity.
  - compute_done.
  - constructor; [|constructor]. exists 1. split; [reflexivity|by eexists].
  - intros r Hr. discriminate Hr.
  - apply bound_service_returns.
Defined.
End MoreExamples.

Section MoreValueObjectExamples.
Local Existing Instance toy_hashing.

Lemma value_object_eq_hash_witness :
  Domain.__hash__ (Amount 1) = Domain.__hash__ (Domain.clone (Amount 1)).
Proof.
  apply (value_object_eq_hash (H := toy_hashing)).
  - compute_done.
  - compute_done.
  - reflexivity.
Defined.

Lemma value_object_eq_sym_trans_witness :
  (wf_model (Amount 1) = true → wf_model (Amount (2 - 1)) = true →
   Domain.__eq__ (Amount 1) (Domain.Nested (Amount (2 - 1))) = true →
   Domain.__eq__ (Amount (2 - 1)) (Domain.Nested (Amount 1)) = true) ∧
  (Domain.__eq__ (Amount 1) (Domain.Nested (Amount (2 - 1))) = true →
   Domain.__eq__ (Amount (2 - 1)) (Domain.Nested (Amount 1)) = true →
   Domain.__eq__ (Amount 1) (Domain.Nested (Amount 1)) = true).
Proof.
  apply (value_object_eq_sym_trans (Amount 1) (Amount (2 - 1)) (Amount 1)).
  reflexivity.
Defined.

Lemma value_object_field_order_witness :
  Domain.__eq__
    (Domain.Instance 11%positive [] [("currency", Domain.Plain (VStr "EUR"));
                            ("amount", Domain.Plain (VInt 1))])
    (Domain.Nested
       (Domain.Instance 11%positive [] [("amount", Domain.Plain (VInt 1));
                               ("currency", Domain.Plain (VStr "EUR"))])) = true ∧
  Domain.__hash__
    (Domain.Instance 11%positive [] [("currency", Domain.Plain (VStr "EUR"));
                            ("amount", Domain.Plain (VInt 1))])
  = Domain.__hash__
      (Domain.Instance 11%positive [] [("amount", Domain.Plain (VInt 1));
                              ("currency", Domain.Plain (VStr "EUR"))]).
Proof.
  apply (value_object_field_order (H := toy_hashing)).
  - reflexivity.
  - apply perm_swap.
Defined.
End MoreValueObjectExamples.

(** ** What programs and the wrapper never do *)

Section Never.
Context `{Runtime}.

Import Di.
Local Abbreviation instances s := (ProviderRegistry.__instances__ (registry s)).
Local Abbreviation bindings s := (ProviderRegistry.__bindings__ (registry s)).

Lemma exec_bound (o : Op) (s : State) (k : Interface) :
  is_Some (bindings s !! k) → is_Some (bindings (exec o s) !! k).
Proof.
  intros Hk. destruct o; cbn [exec].
  - by apply (bind_all_bound [Tuple (interface, impl)]).
  - by apply (bind_all_bound [Bare provider]).
  - by apply bind_all_bound.
  - by rewrite get_bindings.
  - destruct (inject_resolved func args kwargs s) as [-> _]. done.
  - done.
Qed.

(** X18. No operation removes a binding: a key that is bound stays bound
    through every program.  So [get] of it never fails for want of a
    binding: whatever it raises later on is what the factory bound to the
    key at that time raises. *)
Theorem bound_keys_stay_bound (ops : list Op) (s : State) (k : Interface) :
  is_Some (bindings s !! k) →
  is_Some (bindings (run ops s) !! k) ∧
  ∀ e s', get k (run ops s) = Raise e s' →
    ∃ f, bindings (run ops s) !! k = Some f ∧
         invoke f (world (run ops s)) = Raise e (world s').
Proof.
  intros Hk.
  assert (is_Some (bindings (run ops s) !! k)) as [f Hf].
  { revert s Hk. induction ops as [|o ops IH]; intros s Hk; [done|].
    cbn. apply IH. by apply exec_bound. }
  split; [by eexists|]. intros e s' Hget. exists f. split; [done|].
  destruct (instances (run ops s) !! k) as [v|] eqn:Hi;
    [by rewrite (get_cached _ _ _ Hi) in Hget|].
  rewrite (get_uncached _ _ Hi), Hf in Hget.
  destruct (invoke f (world (run ops s))) as [v w|e1 w]; [done|].
  by injection Hget as <- <-.
Qed.

(** For callables and factories that leave the registry alone, as [call]
    and [body] have them: a call of a wrapped callable never changes the
    binding table, and changes the cache only by adding instances for
    bound keys among the annotations of the callable. *)
Theorem inject_effect_on_registry (func : Function) (args : list Value)
    (kwargs : gmap string Value) (s : State) :
  let s' := state_of (inject func args kwargs s) in
  bindings s' = bindings s ∧
  (∀ k v, instances s !! k = Some v → instances s' !! k = Some v) ∧
  (∀ k, instances s !! k = None → is_Some (instances s' !! k) →
        k ∈ (getfullargspec_annotations (signature func)).*2 ∧
        is_Some (bindings s !! k)).
Proof.
  intros s'. destruct (inject_resolved func args kwargs s) as [Hb Hi]. fold s' in Hb, Hi.
  split_and!; [done| |].
  - intros k v Hk. destruct (Hi k) as [->|(Hn & _)]; congruence.
  - intros k Hk Hs. destruct (Hi k) as [Heq|(_ & Hin & Hbk & _)]; [|done].
    rewrite Heq, Hk in Hs. by destruct Hs.
Qed.

End Never.

Section NeverExamples.
Local Existing Instance counting.
Local Open Scope positive_scope.

Lemma bound_keys_stay_bound_witness :
  is_Some (Di.ProviderRegistry.__bindings__
             (Di.registry (run [OGet 1; OBind 2 (Ref 3)] bound_service)) !! 1) ∧
  ∀ e s', Di.get 1 (run [OGet 1; OBind 2 (Ref 3)] bound_service) = Raise e s' →
    ∃ f, Di.ProviderRegistry.__bindings__
           (Di.registry (run [OGet 1; OBind 2 (Ref 3)] bound_service)) !! 1 = Some f ∧
         invoke f (Di.world (run [OGet 1; OBind 2 (Ref 3)] bound_service))
           = Raise e (Di.world s').
Proof.
  apply (bound_keys_stay_bound (H := counting) [OGet 1; OBind 2 (Ref 3)] bound_service 1).
  by eexists.
Defined.

End NeverExamples.
